(** * SimpleVector: a shallow embedding of [simple_vector.h]

    The container of [src/simple-vector/simple_vector.h] is embedded as
    executable functions over lists.  The conventions are:

    - a [size_t] is a [nat] not above [SIZE_MAX]; the additions,
      subtractions and products the source computes in [size_t] are
      reduced modulo [SIZE_MAX + 1];
    - a block of [Type] owned by an [ArrayPtr] is a [list T]; reading or
      writing a slot outside the block is undefined behaviour, modelled
      by [None];
    - an iterator ([Type*]) into the storage of a vector is its offset
      from [items_.Get()], so that [begin()] is the offset [0] and
      [end()] the offset [size_];
    - a parameter of type [const Type&] or [Type&&] is an [argument]:
      an object outside the storage of the vector, or a reference to an
      element of the vector itself, which is read when the source reads
      it and is dangling once the block it points into is released;
    - a failed [assert] and undefined behaviour are [None] / [Undefined];
      a thrown exception is [Raised], carrying the state the object is
      left in once the exception has left the member function;
    - objects that the source compares by address ([this != &rhs]) live
      in a heap indexed by locations. *)

From stdpp Require Import base option list gmap strings.

Set Default Proof Using "Type".

(** ** The platform and the element type *)

(** The largest value of [size_t] on the platform. *)
Class Platform := SIZE_MAX : nat.

(** What the template parameter [Type] has to offer. *)
Class Element (T : Type) := {
  (** [Type()], a value-initialised object *)
  default_value : T;
  (** what [new Type[n]] leaves in slot [i]: [Type()] for a class with a
      default constructor, an indeterminate value for a scalar *)
  default_init : nat → T;
  (** the state an object is left in after it has been moved from *)
  moved_from : T → T;
  (** [operator==] of [Type] *)
  elem_eq : T → T → bool;
  (** [operator<] of [Type] *)
  elem_lt : T → T → bool;
}.

(** ** Arithmetic in [size_t] *)

Section size_t.
Context `{Platform}.

Definition to_size_t (n : nat) : nat := n mod (S SIZE_MAX).
Definition size_add (a b : nat) : nat := to_size_t (a + b).
Definition size_sub (a b : nat) : nat := to_size_t (a + S SIZE_MAX - b).
Definition size_mul (a b : nat) : nat := to_size_t (a * b).
End size_t.

(** ** Exceptions and outcomes *)

Inductive exception :=
  | out_of_range (what : string)
  | element_exception.

(** How a member function that may throw ends: it returns [a] and leaves
    the state [s], or it throws [e] and leaves the state [s], or its
    behaviour is undefined. *)
Inductive outcome (A S : Type) :=
  | Done (a : A) (s : S)
  | Raised (e : exception) (s : S)
  | Undefined.
Arguments Done {A S} a s.
Arguments Raised {A S} e s.
Arguments Undefined {A S}.

(** ** The owning buffer *)

Module ArrayPtr.
Section array_ptr.
Context {T : Type} `{Element T}.

(** Modelled from the spec: [array_ptr.h] is not part of the sources.
    Its contract (section 6 of the specification) is: [Allocate(n)]
    returns an owner of [n] contiguous default-constructed-or-uninitialized
    slots, [n = 0] yields an empty owner. *)
Definition make (n : nat) : list T := default_init <$> seq 0 n.

(** Modelled from the spec: indexed access returns a reference to slot
    [i]; undefined behaviour if [i] is out of the allocated range. *)
Definition get (block : list T) (i : nat) : option T := block !! i.
Definition set (block : list T) (i : nat) (x : T) : option (list T) :=
  if decide (i < length block) then Some (<[i := x]> block) else None.
Definition slot (block : list T) (i : nat) : option nat :=
  if decide (i < length block) then Some i else None.

(** Modelled from the spec: [Swap(other)] exchanges the owned blocks. *)
Definition swap (a b : list T) : list T * list T := (b, a).

(** Modelled from the spec: ownership transfer (move): the source
    becomes empty.  The result is the pair of the block the destination
    owns and the block the source is left with. *)
Definition move (src : list T) : list T * list T := (src, []).
End array_ptr.
End ArrayPtr.

(** ** The algorithms of the C++ library the source calls *)

Section algorithms.
Context {T : Type} `{Element T}.

(** [std::copy(first, last, d_first)] from one block into another:
    [while (first != last) *d_first++ = *first++;] *)
Fixpoint copy_loop (n : nat) (src : list T) (first : nat)
    (dst : list T) (d : nat) : option (list T) :=
  match n with
  | 0 => Some dst
  | S n' =>
      x ← ArrayPtr.get src first;
      dst' ← ArrayPtr.set dst d x;
      copy_loop n' src (S first) dst' (S d)
  end.

Definition std_copy (src : list T) (first last : nat)
    (dst : list T) (d : nat) : option (list T) :=
  if decide (first ≤ last) then copy_loop (last - first) src first dst d
  else None.

(** The same loop when copying an element may throw: [cp x] is [None]
    when the copy of [x] throws.  The destination keeps what was
    written before the exception. *)
Fixpoint copy_loop_throwing (cp : T → option T) (n : nat) (src : list T)
    (first : nat) (dst : list T) (d : nat) : outcome () (list T) :=
  match n with
  | 0 => Done () dst
  | S n' =>
      match ArrayPtr.get src first with
      | None => Undefined
      | Some x =>
          if decide (d < length dst) then
            match cp x with
            | None => Raised element_exception dst
            | Some y =>
                copy_loop_throwing cp n' src (S first) (<[d := y]> dst) (S d)
            end
          else Undefined
      end
  end.

Definition std_copy_throwing (cp : T → option T) (src : list T)
    (first last : nat) (dst : list T) (d : nat) : outcome () (list T) :=
  if decide (first ≤ last)
  then copy_loop_throwing cp (last - first) src first dst d
  else Undefined.

(** [std::move(first, last, d_first)] from one block into another:
    [while (first != last) { *d_first = std::move( *first ); ++d_first; ++first; }]
    The result is the pair of the source and the destination blocks. *)
Fixpoint move_loop (n : nat) (src : list T) (first : nat)
    (dst : list T) (d : nat) : option (list T * list T) :=
  match n with
  | 0 => Some (src, dst)
  | S n' =>
      x ← ArrayPtr.get src first;
      dst' ← ArrayPtr.set dst d x;
      src' ← ArrayPtr.set src first (moved_from x);
      move_loop n' src' (S first) dst' (S d)
  end.

Definition std_move (src : list T) (first last : nat)
    (dst : list T) (d : nat) : option (list T * list T) :=
  if decide (first ≤ last) then move_loop (last - first) src first dst d
  else None.

(** [std::move(first, last, d_first)] when both ranges lie in one block. *)
Fixpoint move_within_loop (n : nat) (block : list T) (first d : nat)
    : option (list T) :=
  match n with
  | 0 => Some block
  | S n' =>
      x ← ArrayPtr.get block first;
      block ← ArrayPtr.set block d x;
      block ← ArrayPtr.set block first (moved_from x);
      move_within_loop n' block (S first) (S d)
  end.

Definition std_move_within (block : list T) (first last d : nat)
    : option (list T) :=
  if decide (first ≤ last) then move_within_loop (last - first) block first d
  else None.

(** [std::copy_backward(first, last, d_last)] inside one block:
    [while (first != last) { --d_last; --last; *d_last = *last; }] *)
Fixpoint copy_backward_loop (n : nat) (block : list T) (last d_last : nat)
    : option (list T) :=
  match n with
  | 0 => Some block
  | S n' =>
      match last, d_last with
      | S last', S d' =>
          x ← ArrayPtr.get block last';
          block ← ArrayPtr.set block d' x;
          copy_backward_loop n' block last' d'
      | _, _ => None
      end
  end.

Definition std_copy_backward (block : list T) (first last d_last : nat)
    : option (list T) :=
  if decide (first ≤ last)
  then copy_backward_loop (last - first) block last d_last
  else None.

(** [std::move_backward(first, last, d_last)] inside one block:
    [while (first != last) { --d_last; --last; *d_last = std::move( *last ); }] *)
Fixpoint move_backward_loop (n : nat) (block : list T) (last d_last : nat)
    : option (list T) :=
  match n with
  | 0 => Some block
  | S n' =>
      match last, d_last with
      | S last', S d' =>
          x ← ArrayPtr.get block last';
          block ← ArrayPtr.set block d' x;
          block ← ArrayPtr.set block last' (moved_from x);
          move_backward_loop n' block last' d'
      | _, _ => None
      end
  end.

Definition std_move_backward (block : list T) (first last d_last : nat)
    : option (list T) :=
  if decide (first ≤ last)
  then move_backward_loop (last - first) block last d_last
  else None.

(** [for (it = first; it != last; ++it) *it = value;], the loop of
    [std::fill] and of the two loops of [Resize]. *)
Fixpoint fill_loop (n : nat) (block : list T) (it : nat) (value : T)
    : option (list T) :=
  match n with
  | 0 => Some block
  | S n' =>
      block ← ArrayPtr.set block it value;
      fill_loop n' block (S it) value
  end.

Definition std_fill (block : list T) (first last : nat) (value : T)
    : option (list T) :=
  if decide (first ≤ last) then fill_loop (last - first) block first value
  else None.

(** [std::equal(first1, last1, first2, last2)] on random-access ranges:
    ranges of different lengths are unequal, otherwise the elements
    are compared pairwise with [operator==]. *)
Fixpoint equal_loop (n : nat) (b1 : list T) (first1 : nat)
    (b2 : list T) (first2 : nat) : option bool :=
  match n with
  | 0 => Some true
  | S n' =>
      x ← ArrayPtr.get b1 first1;
      y ← ArrayPtr.get b2 first2;
      if elem_eq x y then equal_loop n' b1 (S first1) b2 (S first2)
      else Some false
  end.

Definition std_equal (b1 : list T) (first1 last1 : nat)
    (b2 : list T) (first2 last2 : nat) : option bool :=
  if decide (first1 ≤ last1 ∧ first2 ≤ last2) then
    if decide (last1 - first1 = last2 - first2)
    then equal_loop (last1 - first1) b1 first1 b2 first2
    else Some false
  else None.

(** [std::lexicographical_compare(first1, last1, first2, last2)]:
<<
    for (; first1 != last1 && first2 != last2; ++first1, ++first2) {
        if ( *first1 < *first2 ) return true;
        if ( *first2 < *first1 ) return false;
    }
    return first1 == last1 && first2 != last2;
>> *)
Fixpoint lexicographical_loop (n1 n2 : nat) (b1 : list T) (first1 : nat)
    (b2 : list T) (first2 : nat) : option bool :=
  match n1, n2 with
  | S n1', S n2' =>
      x ← ArrayPtr.get b1 first1;
      y ← ArrayPtr.get b2 first2;
      if elem_lt x y then Some true
      else if elem_lt y x then Some false
      else lexicographical_loop n1' n2' b1 (S first1) b2 (S first2)
  | 0, S _ => Some true
  | _, 0 => Some false
  end.

Definition std_lexicographical_compare (b1 : list T) (first1 last1 : nat)
    (b2 : list T) (first2 last2 : nat) : option bool :=
  if decide (first1 ≤ last1 ∧ first2 ≤ last2)
  then lexicographical_loop (last1 - first1) (last2 - first2)
         b1 first1 b2 first2
  else None.
End algorithms.

(** ** The container *)

Record SimpleVector (T : Type) := {
  items_ : list T;
  size_ : nat;
  capacity_ : nat;
}.
Arguments items_ {T} _.
Arguments size_ {T} _.
Arguments capacity_ {T} _.

(** [struct ReserveProxyObj] *)
Record ReserveProxyObj := { proxy_capacity_ : nat }.

(** [ReserveProxyObj Reserve(size_t capacity_to_reserve)], the free
    function. *)
Definition Reserve_proxy (capacity_to_reserve : nat) : ReserveProxyObj :=
  {| proxy_capacity_ := capacity_to_reserve |}.

(** What a parameter of type [const Type&] or [Type&&] is bound to when
    a member function of a vector is called: an object outside the
    storage of that vector, or the element in slot [i] of its block (as
    in [v.PushBack(v[i])]). *)
Inductive argument (T : Type) :=
  | external (x : T)
  | element (i : nat).
Arguments external {T} x.
Arguments element {T} i.

(** A call of [PushBack], by its overload. *)
Inductive push_call (T : Type) :=
  | by_copy (item : argument T)
  | by_move (item : argument T).
Arguments by_copy {T} item.
Arguments by_move {T} item.

Section simple_vector.
Context `{Platform} {T : Type} `{Element T}.

(** [SimpleVector() noexcept = default] *)
Definition SimpleVector_default : SimpleVector T :=
  {| items_ := []; size_ := 0; capacity_ := 0 |}.

(** [explicit SimpleVector(size_t size)] *)
Definition SimpleVector_sized (size : nat) : option (SimpleVector T) :=
  block ← std_fill (ArrayPtr.make size) 0 size default_value;
  Some {| items_ := block; size_ := size; capacity_ := size |}.

(** [SimpleVector(size_t size, const Type& value)] *)
Definition SimpleVector_fill (size : nat) (value : T)
    : option (SimpleVector T) :=
  block ← std_fill (ArrayPtr.make size) 0 size value;
  Some {| items_ := block; size_ := size; capacity_ := size |}.

(** [SimpleVector(std::initializer_list<Type> init)] *)
Definition SimpleVector_init (init : list T) : option (SimpleVector T) :=
  block ← std_copy init 0 (length init) (ArrayPtr.make (length init)) 0;
  Some {| items_ := block; size_ := length init; capacity_ := length init |}.

(** [SimpleVector(const SimpleVector& other)] *)
Definition SimpleVector_copy (other : SimpleVector T)
    : option (SimpleVector T) :=
  block ← std_copy (items_ other) 0 (size_ other)
             (ArrayPtr.make (capacity_ other)) 0;
  Some {| items_ := block;
          size_ := size_ other;
          capacity_ := capacity_ other |}.

(** [SimpleVector(ReserveProxyObj obj)] *)
Definition SimpleVector_reserved (obj : ReserveProxyObj) : SimpleVector T :=
  {| items_ := ArrayPtr.make (proxy_capacity_ obj);
     size_ := 0;
     capacity_ := proxy_capacity_ obj |}.

Definition GetSize (v : SimpleVector T) : nat := size_ v.
Definition GetCapacity (v : SimpleVector T) : nat := capacity_ v.
Definition IsEmpty (v : SimpleVector T) : bool := bool_decide (size_ v = 0).

(** [Type& operator[](size_t index) noexcept]: the reference is the
    slot it designates. *)
Definition subscript (v : SimpleVector T) (index : nat) : option nat :=
  if decide (index < size_ v) then ArrayPtr.slot (items_ v) index
  else None.

(** [Type& At(size_t index)] *)
Definition At (v : SimpleVector T) (index : nat)
    : outcome nat (SimpleVector T) :=
  if decide (size_ v ≤ index) then
    Raised (out_of_range "Index is out of range") v
  else
    match ArrayPtr.slot (items_ v) index with
    | Some r => Done r v
    | None => Undefined
    end.

(** Reading through a reference to a slot. *)
Definition read (v : SimpleVector T) (r : nat) : option T :=
  ArrayPtr.get (items_ v) r.

(** [void Clear() noexcept] *)
Definition Clear (v : SimpleVector T) : SimpleVector T :=
  {| items_ := items_ v; size_ := 0; capacity_ := capacity_ v |}.

(** [void Resize(size_t new_size)] *)
Definition Resize (v : SimpleVector T) (new_size : nat)
    : option (SimpleVector T) :=
  if decide (new_size ≤ size_ v) then
    Some {| items_ := items_ v; size_ := new_size; capacity_ := capacity_ v |}
  else if decide (new_size ≤ capacity_ v) then
    block ← std_fill (items_ v) (size_ v)
               (size_ v + size_sub new_size (size_ v)) default_value;
    Some {| items_ := block; size_ := new_size; capacity_ := capacity_ v |}
  else
    let new_capacity := new_size `max` size_mul 2 (capacity_ v) in
    let new_items := ArrayPtr.make new_capacity in
    '(old_items, new_items) ← std_move (items_ v) 0 (size_ v) new_items 0;
    new_items ← std_fill new_items (size_ v) new_size default_value;
    let '(items, new_items) := ArrayPtr.swap old_items new_items in
    Some {| items_ := items; size_ := new_size; capacity_ := new_capacity |}.

(** Whether [Resize(new_size)] releases the block the vector had: it
    does so in its third branch, where the old block is swapped into
    [new_items] and destroyed with it. *)
Definition Resize_releases (v : SimpleVector T) (new_size : nat) : bool :=
  bool_decide (¬ new_size ≤ size_ v ∧ ¬ new_size ≤ capacity_ v).

(** Reading a parameter after [Resize]: an object outside the storage
    is read as it is; a reference to slot [i] reads what that slot of
    the block holds now, and is dangling when the block it pointed into
    has been released. *)
Definition read_argument (released : bool) (block : list T)
    (item : argument T) : option T :=
  match item with
  | external x => Some x
  | element i => if released then None else ArrayPtr.get block i
  end.

(** Leaving the object a [Type&&] parameter is bound to in its
    moved-from state: the result is the block and the argument after
    the move. *)
Definition move_from_argument (block : list T) (item : argument T) (x : T)
    : option (list T * argument T) :=
  match item with
  | external _ => Some (block, external (moved_from x))
  | element i =>
      block ← ArrayPtr.set block i (moved_from x);
      Some (block, element i)
  end.

(** [void PushBack(const Type& item)] *)
Definition PushBack (v : SimpleVector T) (item : argument T)
    : option (SimpleVector T) :=
  let released := Resize_releases v (size_add (size_ v) 1) in
  v ← Resize v (size_add (size_ v) 1);
  x ← read_argument released (items_ v) item;
  block ← ArrayPtr.set (items_ v) (size_sub (size_ v) 1) x;
  Some {| items_ := block; size_ := size_ v; capacity_ := capacity_ v |}.

(** [void PushBack(Type&& item)]: the result is the vector and the
    argument after the call. *)
Definition PushBack_move (v : SimpleVector T) (item : argument T)
    : option (SimpleVector T * argument T) :=
  let released := Resize_releases v (size_add (size_ v) 1) in
  v ← Resize v (size_add (size_ v) 1);
  x ← read_argument released (items_ v) item;
  block ← ArrayPtr.set (items_ v) (size_sub (size_ v) 1) x;
  '(block, item) ← move_from_argument block item x;
  Some ({| items_ := block; size_ := size_ v; capacity_ := capacity_ v |},
        item).

(** [Iterator Insert(ConstIterator pos, const Type& value)] *)
Definition Insert (v : SimpleVector T) (pos : nat) (value : argument T)
    : option (nat * SimpleVector T) :=
  if decide (pos ≤ size_ v) then
    let index := pos in
    let released := Resize_releases v (size_add (size_ v) 1) in
    v ← Resize v (size_add (size_ v) 1);
    new_pos ← ArrayPtr.slot (items_ v) index;
    block ← std_copy_backward (items_ v)
               new_pos (size_sub (size_ v) 1) (size_ v);
    x ← read_argument released block value;
    block ← ArrayPtr.set block new_pos x;
    Some (new_pos,
          {| items_ := block; size_ := size_ v; capacity_ := capacity_ v |})
  else None.

(** [Iterator Insert(ConstIterator pos, Type&& value)]: the result is
    the position, the vector and the argument after the call. *)
Definition Insert_move (v : SimpleVector T) (pos : nat) (value : argument T)
    : option (nat * SimpleVector T * argument T) :=
  if decide (pos ≤ size_ v) then
    let index := pos in
    let released := Resize_releases v (size_add (size_ v) 1) in
    v ← Resize v (size_add (size_ v) 1);
    new_pos ← ArrayPtr.slot (items_ v) index;
    block ← std_move_backward (items_ v)
               new_pos (size_sub (size_ v) 1) (size_ v);
    x ← read_argument released block value;
    block ← ArrayPtr.set block new_pos x;
    '(block, value) ← move_from_argument block value x;
    Some (new_pos,
          {| items_ := block; size_ := size_ v; capacity_ := capacity_ v |},
          value)
  else None.

(** [void PopBack() noexcept] *)
Definition PopBack (v : SimpleVector T) : SimpleVector T :=
  if decide (0 < size_ v) then
    {| items_ := items_ v;
       size_ := size_sub (size_ v) 1;
       capacity_ := capacity_ v |}
  else v.

(** [Iterator Erase(ConstIterator pos)] *)
Definition Erase (v : SimpleVector T) (pos : nat)
    : option (nat * SimpleVector T) :=
  if decide (pos < size_ v) then
    let index := pos in
    block ← std_move_within (items_ v) (index + 1) (size_ v) pos;
    let v := {| items_ := block;
                size_ := size_sub (size_ v) 1;
                capacity_ := capacity_ v |} in
    r ← ArrayPtr.slot (items_ v) index;
    Some (r, v)
  else None.

(** [void swap(SimpleVector& other) noexcept] *)
Definition swap (v other : SimpleVector T)
    : SimpleVector T * SimpleVector T :=
  let '(a, b) := ArrayPtr.swap (items_ v) (items_ other) in
  ({| items_ := a; size_ := size_ other; capacity_ := capacity_ other |},
   {| items_ := b; size_ := size_ v; capacity_ := capacity_ v |}).

(** [void Reserve(size_t new_capacity)] *)
Definition Reserve (v : SimpleVector T) (new_capacity : nat)
    : option (SimpleVector T) :=
  if decide (capacity_ v < new_capacity) then
    let new_items := ArrayPtr.make new_capacity in
    new_items ← std_copy (items_ v) 0 (size_ v) new_items 0;
    let '(items, new_items) := ArrayPtr.swap (items_ v) new_items in
    Some {| items_ := items; size_ := size_ v; capacity_ := new_capacity |}
  else Some v.

(** [operator==] *)
Definition operator_eq (lhs rhs : SimpleVector T) : option bool :=
  std_equal (items_ lhs) 0 (size_ lhs) (items_ rhs) 0 (size_ rhs).

(** [operator!=] *)
Definition operator_ne (lhs rhs : SimpleVector T) : option bool :=
  negb <$> operator_eq lhs rhs.

(** [operator<] *)
Definition operator_lt (lhs rhs : SimpleVector T) : option bool :=
  std_lexicographical_compare
    (items_ lhs) 0 (size_ lhs) (items_ rhs) 0 (size_ rhs).

(** [operator<=] *)
Definition operator_le (lhs rhs : SimpleVector T) : option bool :=
  negb <$> operator_lt rhs lhs.

(** [operator>] *)
Definition operator_gt (lhs rhs : SimpleVector T) : option bool :=
  operator_lt rhs lhs.

(** [operator>=] *)
Definition operator_ge (lhs rhs : SimpleVector T) : option bool :=
  negb <$> operator_lt lhs rhs.

(** *** Objects with an identity *)

(** [SimpleVector(SimpleVector&& other)], constructing the object at
    the unused location [this]. *)
Definition move_construct (this other : nat)
    (h : gmap nat (SimpleVector T)) : option (gmap nat (SimpleVector T)) :=
  match h !! this with
  | Some _ => None
  | None =>
      o ← h !! other;
      let '(items, other_items) := ArrayPtr.move (items_ o) in
      Some (<[this := {| items_ := items;
                         size_ := size_ o;
                         capacity_ := capacity_ o |}]>
            (<[other := {| items_ := other_items;
                           size_ := 0;
                           capacity_ := 0 |}]> h))
  end.

(** [SimpleVector& operator=(const SimpleVector& rhs)], where copying
    the element [x] throws when [cp x] is [None]. *)
Definition copy_assign (cp : T → option T) (this rhs : nat)
    (h : gmap nat (SimpleVector T))
    : outcome () (gmap nat (SimpleVector T)) :=
  match h !! this, h !! rhs with
  | Some t, Some r =>
      if decide (this ≠ rhs) then
        let other := ArrayPtr.make (capacity_ r) in
        let '(items, other) := ArrayPtr.swap (items_ t) other in
        match std_copy_throwing cp (items_ r) 0 (size_ r) items 0 with
        | Done _ items =>
            Done () (<[this := {| items_ := items;
                                  size_ := size_ r;
                                  capacity_ := capacity_ r |}]> h)
        | Raised e items =>
            Raised e (<[this := {| items_ := items;
                                   size_ := size_ t;
                                   capacity_ := capacity_ t |}]> h)
        | Undefined => Undefined
        end
      else Done () h
  | _, _ => Undefined
  end.

(** [SimpleVector& operator=(SimpleVector&& rhs)] *)
Definition move_assign (this rhs : nat) (h : gmap nat (SimpleVector T))
    : option (gmap nat (SimpleVector T)) :=
  t ← h !! this;
  r ← h !! rhs;
  if decide (this ≠ rhs) then
    let '(items, rhs_items) := ArrayPtr.move (items_ r) in
    Some (<[this := {| items_ := items;
                       size_ := size_ r;
                       capacity_ := capacity_ r |}]>
          (<[rhs := {| items_ := rhs_items;
                       size_ := 0;
                       capacity_ := 0 |}]> h))
  else Some h.

(** *** Vocabulary of the statements *)

(** The logical element sequence, the slots at indices [0 .. size). *)
Definition elements (v : SimpleVector T) : list T :=
  take (size_ v) (items_ v).

(** The representation invariant: [items_] owns [capacity_] slots, of
    which the first [size_] are in use, and [capacity_] is a [size_t]. *)
Definition wf (v : SimpleVector T) : Prop :=
  length (items_ v) = capacity_ v ∧
  size_ v ≤ capacity_ v ∧
  capacity_ v ≤ SIZE_MAX.

(** A run of [PushBack(const Type&)] calls on objects outside the
    storage of the vector, in the order of the list: the states the
    vector goes through, the initial one first. *)
Fixpoint push_trace (v : SimpleVector T) (xs : list T)
    : option (list (SimpleVector T)) :=
  match xs with
  | [] => Some [v]
  | x :: xs =>
      v' ← PushBack v (external x); tr ← push_trace v' xs; Some (v :: tr)
  end.

(** One call of [PushBack], by either overload. *)
Definition push (v : SimpleVector T) (call : push_call T)
    : option (SimpleVector T) :=
  match call with
  | by_copy item => PushBack v item
  | by_move item => fst <$> PushBack_move v item
  end.

(** A run of calls of [PushBack]: the states the vector goes through,
    the initial one first. *)
Fixpoint push_calls (v : SimpleVector T) (calls : list (push_call T))
    : option (list (SimpleVector T)) :=
  match calls with
  | [] => Some [v]
  | call :: calls =>
      v' ← push v call; tr ← push_calls v' calls; Some (v :: tr)
  end.

(** The parameter a call of [PushBack] binds. *)
Definition call_argument (call : push_call T) : argument T :=
  match call with
  | by_copy item => item
  | by_move item => item
  end.

(** An argument that holds [x] and that growing the vector by one
    element cannot leave dangling: an object [x] outside the storage,
    or an element of value [x] of a vector with spare capacity. *)
Definition refers_to (v : SimpleVector T) (item : argument T) (x : T)
    : Prop :=
  match item with
  | external y => y = x
  | element i => size_ v < capacity_ v ∧ elements v !! i = Some x
  end.

(** The capacity after [k] calls of [PushBack] on an empty vector, as
    the specification gives it: none before the first allocation, then
    the doubling sequence 1, 2, 4, 8, ... *)
Definition doubling_capacity (k : nat) : nat :=
  match k with
  | 0 => 0
  | S _ => 2 ^ Nat.log2_up k
  end.

(** The calls the corrected statement about runs of [PushBack] admits
    as call number [k + 1] of a run on a default-constructed vector:
    either overload on an object outside the storage, and the copying
    overload on one of the [k] elements when the call does not
    reallocate, that is when [k] is below the capacity after [k]
    calls. *)
Definition admissible (k : nat) (call : push_call T) : Prop :=
  match call with
  | by_copy (external _) | by_move (external _) => True
  | by_copy (element i) => i < k ∧ k < doubling_capacity k
  | by_move (element _) => False
  end.

(** Two elements that [operator<] does not tell apart. *)
Definition equivalent (x y : T) : Prop :=
  elem_lt x y = false ∧ elem_lt y x = false.

(** Lexicographic order as the specification words it: the sequences
    agree on the first [k] positions, and then either the left one has
    ended and the right one has not (a strict prefix sorts first), or
    the elements at position [k], the first that differ, decide. *)
Definition lexicographic_less (xs ys : list T) : Prop :=
  ∃ k,
    (∀ i x y, i < k → xs !! i = Some x → ys !! i = Some y → equivalent x y) ∧
    k ≤ length xs ∧ k ≤ length ys ∧
    ((k = length xs ∧ k < length ys) ∨
     (∃ x y, xs !! k = Some x ∧ ys !! k = Some y ∧ elem_lt x y = true)).

(** The same order, computed on the two sequences. *)
Fixpoint lexicographic_lt (xs ys : list T) : bool :=
  match xs, ys with
  | [], _ :: _ => true
  | _, [] => false
  | x :: xs, y :: ys =>
      if elem_lt x y then true
      else if elem_lt y x then false
      else lexicographic_lt xs ys
  end.
End simple_vector.

(** ** A concrete platform and element type for the examples *)

(** A platform whose [size_t] has 16 bits. *)
Definition size_t_16 : Platform := 2 ^ 16 - 1.

(** [int] elements: [int()] is [0], a moved-from [int] keeps its value,
    and [new int[n]] leaves indeterminate values, here negative ones. *)
Definition int_element : Element Z :=
  {| default_value := 0%Z;
     default_init := λ i, (-1 - Z.of_nat i)%Z;
     moved_from := λ x, x;
     elem_eq := Z.eqb;
     elem_lt := Z.ltb |}.

(** Elements that are left empty when moved from, as a [std::string]
    or an owning pointer is; the empty value is [0]. *)
Definition handle_element : Element Z :=
  {| default_value := 0%Z;
     default_init := λ _, 0%Z;
     moved_from := λ _, 0%Z;
     elem_eq := Z.eqb;
     elem_lt := Z.ltb |}.

(** An element copy that throws when the value copied is [8]. *)
Definition copy_unless_8 (x : Z) : option Z :=
  if decide (x = 8%Z) then None else Some x.

(** [SimpleVector<int>{...}] and the comparisons of two [SimpleVector<int>]. *)
Definition FromList : list Z → option (SimpleVector Z) :=
  @SimpleVector_init Z int_element.
Definition int_eq : SimpleVector Z → SimpleVector Z → option bool :=
  @operator_eq Z int_element.
Definition int_lt : SimpleVector Z → SimpleVector Z → option bool :=
  @operator_lt Z int_element.
Definition int_gt : SimpleVector Z → SimpleVector Z → option bool :=
  @operator_gt Z int_element.

(** A vector of five [int]s in a block of eight. *)
Definition sample : SimpleVector Z :=
  {| items_ := [1; 2; 3; 4; 5; -6; -7; -8]%Z; size_ := 5; capacity_ := 8 |}.

(** A full vector of three elements, and one of three elements in a
    block of four. *)
Definition full3 : SimpleVector Z :=
  {| items_ := [1; 2; 3]%Z; size_ := 3; capacity_ := 3 |}.
Definition spare3 : SimpleVector Z :=
  {| items_ := [1; 2; 3; 0]%Z; size_ := 3; capacity_ := 4 |}.

(** Two vectors of three [int]s, at the locations 0 and 1. *)
Definition sample_heap : gmap nat (SimpleVector Z) :=
  <[0 := {| items_ := [1; 2; 3]%Z; size_ := 3; capacity_ := 3 |}]>
    (<[1 := {| items_ := [7; 8; 9]%Z; size_ := 3; capacity_ := 3 |}]> ∅).

(** * Properties *)

(** ** Arithmetic in [size_t] that does not wrap *)

Section size_t_facts.
Context `{Platform}.

Lemma to_size_t_small n : n ≤ SIZE_MAX → to_size_t n = n.
Proof. intros Hn. unfold to_size_t. apply Nat.mod_small. lia. Qed.

Lemma size_add_small a b : a + b ≤ SIZE_MAX → size_add a b = a + b.
Proof. apply to_size_t_small. Qed.

Lemma size_mul_small a b : a * b ≤ SIZE_MAX → size_mul a b = a * b.
Proof. apply to_size_t_small. Qed.

Lemma size_sub_small a b : b ≤ a → a ≤ SIZE_MAX → size_sub a b = a - b.
Proof.
  intros Hb Ha. unfold size_sub, to_size_t.
  replace (a + S SIZE_MAX - b) with (a - b + 1 * S SIZE_MAX) by lia.
  rewrite Nat.Div0.mod_add. apply Nat.mod_small. lia.
Qed.

Lemma to_size_t_le n : to_size_t n ≤ SIZE_MAX.
Proof.
  unfold to_size_t.
  pose proof (Nat.mod_upper_bound n (S SIZE_MAX)). lia.
Qed.
End size_t_facts.

(** ** The loops *)

Section loop_facts.
Context {T : Type} `{Element T}.
Implicit Types (block src dst : list T) (x : T).

Lemma set_Some block i x :
  i < length block → ArrayPtr.set block i x = Some (<[i := x]> block).
Proof. intros Hi. unfold ArrayPtr.set. by rewrite decide_True. Qed.

Lemma slot_Some block i :
  i < length block → ArrayPtr.slot block i = Some i.
Proof. intros Hi. unfold ArrayPtr.slot. by rewrite decide_True. Qed.

Lemma length_make n : length (ArrayPtr.make (T := T) n) = n.
Proof. unfold ArrayPtr.make. by rewrite length_fmap, length_seq. Qed.

Lemma fill_loop_spec n : ∀ block it x,
  it + n ≤ length block →
  fill_loop n block it x
  = Some (take it block ++ replicate n x ++ drop (it + n) block).
Proof.
  induction n as [|n IH]; intros block it x Hlen; simpl.
  - by rewrite Nat.add_0_r, take_drop.
  - rewrite set_Some by lia. simpl.
    rewrite IH by (rewrite length_insert; lia).
    rewrite take_insert_lt by lia.
    rewrite drop_insert_lt by lia.
    destruct (lookup_lt_is_Some_2 block it) as [y Hy]; [lia|].
    rewrite (take_S_r _ _ y) by done.
    rewrite insert_app_r_alt by (rewrite length_take; lia).
    rewrite length_take, Nat.min_l, Nat.sub_diag by lia. simpl.
    rewrite <- (assoc_L (++)). simpl.
    by rewrite Nat.add_succ_r.
Qed.

Lemma std_fill_spec block first last x :
  first ≤ last → last ≤ length block →
  std_fill block first last x
  = Some (take first block ++ replicate (last - first) x ++ drop last block).
Proof.
  intros Hfl Hlen. unfold std_fill. rewrite decide_True by done.
  rewrite fill_loop_spec by lia. by replace (first + (last - first)) with last by lia.
Qed.

Lemma copy_loop_spec n : ∀ src first dst d,
  first + n ≤ length src → d + n ≤ length dst →
  copy_loop n src first dst d
  = Some (take d dst ++ take n (drop first src) ++ drop (d + n) dst).
Proof.
  induction n as [|n IH]; intros src first dst d Hs Hd; simpl.
  - by rewrite Nat.add_0_r, take_drop.
  - destruct (lookup_lt_is_Some_2 src first) as [x Hx]; [lia|].
    unfold ArrayPtr.get. rewrite Hx. simpl.
    rewrite set_Some by lia. simpl.
    rewrite IH by (rewrite ?length_insert; lia).
    rewrite take_insert_lt by lia.
    rewrite drop_insert_lt by lia.
    destruct (lookup_lt_is_Some_2 dst d) as [y Hy]; [lia|].
    rewrite (take_S_r _ _ y) by done.
    rewrite insert_app_r_alt by (rewrite length_take; lia).
    rewrite length_take, Nat.min_l, Nat.sub_diag by lia. simpl.
    rewrite <- (assoc_L (++)). simpl.
    rewrite (drop_S _ x first) by done. simpl.
    by rewrite Nat.add_succ_r.
Qed.

Lemma std_copy_spec src first last dst d :
  first ≤ last → last ≤ length src → d + (last - first) ≤ length dst →
  std_copy src first last dst d
  = Some (take d dst ++ take (last - first) (drop first src)
          ++ drop (d + (last - first)) dst).
Proof.
  intros Hfl Hs Hd. unfold std_copy. rewrite decide_True by done.
  apply copy_loop_spec; lia.
Qed.

Lemma move_loop_spec n : ∀ src first dst d,
  first + n ≤ length src → d + n ≤ length dst →
  ∃ src', move_loop n src first dst d
  = Some (src', take d dst ++ take n (drop first src) ++ drop (d + n) dst).
Proof.
  induction n as [|n IH]; intros src first dst d Hs Hd; simpl.
  - exists src. by rewrite Nat.add_0_r, take_drop.
  - destruct (lookup_lt_is_Some_2 src first) as [x Hx]; [lia|].
    unfold ArrayPtr.get. rewrite Hx. simpl.
    rewrite !set_Some by lia. simpl.
    destruct (IH (<[first := moved_from x]> src) (S first) (<[d := x]> dst) (S d))
      as [src' ->]; [rewrite ?length_insert; lia..|].
    exists src'. do 2 f_equal.
    rewrite take_insert_lt by lia.
    rewrite !drop_insert_lt by lia.
    destruct (lookup_lt_is_Some_2 dst d) as [y Hy]; [lia|].
    rewrite (take_S_r _ _ y) by done.
    rewrite insert_app_r_alt by (rewrite length_take; lia).
    rewrite length_take, Nat.min_l, Nat.sub_diag by lia. simpl.
    rewrite <- (assoc_L (++)). simpl.
    rewrite (drop_S _ x first) by done. simpl.
    by rewrite Nat.add_succ_r.
Qed.

Lemma std_move_spec src first last dst d :
  first ≤ last → last ≤ length src → d + (last - first) ≤ length dst →
  ∃ src', std_move src first last dst d
  = Some (src', take d dst ++ take (last - first) (drop first src)
                ++ drop (d + (last - first)) dst).
Proof.
  intros Hfl Hs Hd. unfold std_move. rewrite decide_True by done.
  apply move_loop_spec; lia.
Qed.
End loop_facts.

Section within_block_facts.
Context {T : Type} `{Element T}.
Implicit Types (block : list T) (x : T).

(** Moving the [n] slots after [d] one slot towards the beginning:
    the slots before [d] and those from [S d + n] on keep their
    contents, slot [i] of the range receives what slot [S i] held. *)
Lemma move_within_loop_spec n : ∀ block d,
  S d + n ≤ length block →
  ∃ r, move_within_loop n block (S d) d = Some r ∧
    length r = length block ∧
    (∀ i, i < d → r !! i = block !! i) ∧
    (∀ i, d ≤ i < d + n → r !! i = block !! S i) ∧
    (∀ i, S d + n ≤ i → r !! i = block !! i).
Proof.
  induction n as [|n IH]; intros block d Hlen; simpl.
  - exists block. split_and!; [done..| |done]. intros i ?; lia.
  - destruct (lookup_lt_is_Some_2 block (S d)) as [x Hx]; [lia|].
    unfold ArrayPtr.get. rewrite Hx. simpl.
    rewrite set_Some by lia. simpl.
    rewrite set_Some by (rewrite length_insert; lia). simpl.
    destruct (IH (<[S d := moved_from x]> (<[d := x]> block)) (S d))
      as (r & -> & Hr & Hlo & Hmid & Hhi); [rewrite !length_insert; lia|].
    exists r. rewrite !length_insert in Hr. split_and!; [done..| | |].
    + intros i Hi. rewrite Hlo by lia.
      by rewrite !list_lookup_insert_ne by lia.
    + intros i Hi. destruct (decide (i = d)) as [->|Hne].
      * rewrite Hlo by lia. rewrite list_lookup_insert_ne by lia.
        by rewrite list_lookup_insert_eq by lia.
      * rewrite Hmid by lia. by rewrite !list_lookup_insert_ne by lia.
    + intros i Hi. rewrite Hhi by lia.
      by rewrite !list_lookup_insert_ne by lia.
Qed.

Lemma std_move_within_spec block index size :
  index < size → size ≤ length block →
  ∃ r, std_move_within block (index + 1) size index = Some r ∧
    length r = length block ∧
    (∀ i, i < index → r !! i = block !! i) ∧
    (∀ i, index ≤ i < size - 1 → r !! i = block !! S i) ∧
    (∀ i, size ≤ i → r !! i = block !! i).
Proof.
  intros Hi Hlen. unfold std_move_within.
  rewrite decide_True by lia. rewrite Nat.add_1_r.
  destruct (move_within_loop_spec (size - S index) block index)
    as (r & -> & Hr & Hlo & Hmid & Hhi); [lia|].
  exists r. split_and!; [done..| |].
  - intros i ?. apply Hmid. lia.
  - intros i ?. apply Hhi. lia.
Qed.

(** Copying the [n] slots before [last] one slot towards the end. *)
Lemma copy_backward_loop_spec n : ∀ block last,
  n ≤ last → S last ≤ length block →
  ∃ r, copy_backward_loop n block last (S last) = Some r ∧
    length r = length block ∧
    (∀ i, i ≤ last - n → r !! i = block !! i) ∧
    (∀ i, last - n < i ≤ last → r !! i = block !! (i - 1)) ∧
    (∀ i, last < i → r !! i = block !! i).
Proof.
  induction n as [|n IH]; intros block last Hn Hlen; simpl.
  - exists block. split_and!; [done..| |done]. intros i ?; lia.
  - destruct last as [|last]; [lia|].
    destruct (lookup_lt_is_Some_2 block last) as [x Hx]; [lia|].
    unfold ArrayPtr.get. rewrite Hx. simpl.
    rewrite set_Some by lia. simpl.
    destruct (IH (<[S last := x]> block) last)
      as (r & -> & Hr & Hlo & Hmid & Hhi); [lia|rewrite length_insert; lia|].
    exists r. rewrite length_insert in Hr. split_and!; [done..| | |].
    + intros i Hi. rewrite Hlo by lia.
      by rewrite list_lookup_insert_ne by lia.
    + intros i Hi. destruct (decide (i = S last)) as [->|Hne].
      * rewrite Hhi by lia. rewrite list_lookup_insert_eq by lia.
        by rewrite Nat.sub_1_r.
      * rewrite Hmid by lia. by rewrite list_lookup_insert_ne by lia.
    + intros i Hi. rewrite Hhi by lia.
      by rewrite list_lookup_insert_ne by lia.
Qed.

(** Moving the [n] slots before [last] one slot towards the end: the
    slot at [last - n] is left moved-from. *)
Lemma move_backward_loop_spec n : ∀ block last,
  n ≤ last → S last ≤ length block →
  ∃ r, move_backward_loop n block last (S last) = Some r ∧
    length r = length block ∧
    (∀ i, i < last - n → r !! i = block !! i) ∧
    (∀ i, last - n < i ≤ last → r !! i = block !! (i - 1)) ∧
    (∀ i, last < i → r !! i = block !! i).
Proof.
  induction n as [|n IH]; intros block last Hn Hlen; simpl.
  - exists block. split_and!; [done..| |done]. intros i ?; lia.
  - destruct last as [|last]; [lia|].
    destruct (lookup_lt_is_Some_2 block last) as [x Hx]; [lia|].
    unfold ArrayPtr.get. rewrite Hx. simpl.
    rewrite set_Some by lia. simpl.
    rewrite set_Some by (rewrite length_insert; lia). simpl.
    destruct (IH (<[last := moved_from x]> (<[S last := x]> block)) last)
      as (r & -> & Hr & Hlo & Hmid & Hhi);
      [lia|rewrite !length_insert; lia|].
    exists r. rewrite !length_insert in Hr. split_and!; [done..| | |].
    + intros i Hi. rewrite Hlo by lia.
      by rewrite !list_lookup_insert_ne by lia.
    + intros i Hi. destruct (decide (i = S last)) as [->|Hne].
      * rewrite Hhi by lia. rewrite list_lookup_insert_ne by lia.
        rewrite list_lookup_insert_eq by lia. by rewrite Nat.sub_1_r.
      * rewrite Hmid by lia. by rewrite !list_lookup_insert_ne by lia.
    + intros i Hi. rewrite Hhi by lia.
      by rewrite !list_lookup_insert_ne by lia.
Qed.

(** The throwing copy loop is the plain one when no copy throws. *)
Lemma copy_loop_throwing_Some n : ∀ src first dst d,
  copy_loop_throwing Some n src first dst d
  = match copy_loop n src first dst d return outcome () (list T) with
    | Some r => Done () r
    | None => Undefined
    end.
Proof.
  induction n as [|n IH]; intros src first dst d; simpl; [done|].
  unfold ArrayPtr.get, ArrayPtr.set.
  destruct (src !! first) as [x|]; simpl; [|done].
  case_decide; simpl; [|done]. apply IH.
Qed.
End within_block_facts.

(** ** Resize *)

Section resize_facts.
Context `{Platform} {T : Type} `{Element T}.
Implicit Types (v : SimpleVector T) (x : T).

Lemma Resize_shrink v new_size :
  new_size ≤ size_ v →
  Resize v new_size
  = Some {| items_ := items_ v;
            size_ := new_size;
            capacity_ := capacity_ v |}.
Proof. intros Hle. unfold Resize. by rewrite decide_True. Qed.

Lemma Resize_in_place v new_size :
  wf v → size_ v < new_size ≤ capacity_ v →
  Resize v new_size
  = Some {| items_ := take (size_ v) (items_ v)
                      ++ replicate (new_size - size_ v) default_value
                      ++ drop new_size (items_ v);
            size_ := new_size;
            capacity_ := capacity_ v |}.
Proof.
  intros (Hlen & Hsz & Hcap) [Hlt Hle]. unfold Resize.
  rewrite decide_False by lia. rewrite decide_True by lia.
  rewrite size_sub_small by lia.
  rewrite std_fill_spec by lia. simpl.
  by replace (size_ v + (new_size - size_ v)) with new_size by lia.
Qed.

Lemma Resize_reallocate v new_size :
  wf v → capacity_ v < new_size →
  ∃ rest,
    length rest = new_size `max` size_mul 2 (capacity_ v) - new_size ∧
    Resize v new_size
    = Some {| items_ := take (size_ v) (items_ v)
                        ++ replicate (new_size - size_ v) default_value
                        ++ rest;
              size_ := new_size;
              capacity_ := new_size `max` size_mul 2 (capacity_ v) |}.
Proof.
  intros (Hlen & Hsz & Hcap) Hlt. unfold Resize.
  rewrite !decide_False by lia.
  set (new_capacity := new_size `max` size_mul 2 (capacity_ v)).
  assert (new_size ≤ new_capacity) by lia.
  destruct (std_move_spec (items_ v) 0 (size_ v)
              (ArrayPtr.make new_capacity) 0) as [old ->];
    [lia|lia|rewrite length_make; lia|].
  simpl. rewrite Nat.sub_0_r, drop_0.
  set (moved := take (size_ v) (items_ v)
                ++ drop (size_ v) (ArrayPtr.make new_capacity)).
  assert (length moved = new_capacity) as Hmoved.
  { unfold moved.
    rewrite length_app, length_take, length_drop, length_make. lia. }
  rewrite std_fill_spec by lia. simpl.
  exists (drop new_size moved). split.
  - rewrite length_drop. lia.
  - do 2 f_equal. unfold moved at 1.
    rewrite take_app_le by (rewrite length_take; lia).
    rewrite take_take. by rewrite Nat.min_id.
Qed.

(** What growing by [Resize] does to the logical sequence. *)
Lemma Resize_grow v new_size :
  wf v → size_ v ≤ new_size → new_size ≤ SIZE_MAX →
  ∃ v', Resize v new_size = Some v' ∧
    wf v' ∧
    size_ v' = new_size ∧
    elements v' = elements v ++ replicate (new_size - size_ v) default_value ∧
    capacity_ v' = (if decide (new_size ≤ capacity_ v) then capacity_ v
                    else new_size `max` size_mul 2 (capacity_ v)).
Proof.
  intros Hwf Hle Hmax. pose proof Hwf as (Hlen & Hsz & Hcap).
  destruct (decide (new_size ≤ size_ v)) as [Hshrink|Hgrow].
  - assert (new_size = size_ v) as -> by lia.
    rewrite Resize_shrink by done. eexists. split; [done|].
    rewrite decide_True by lia. unfold elements; simpl.
    rewrite Nat.sub_diag. simpl. by rewrite (right_id_L [] (++)).
  - destruct (decide (new_size ≤ capacity_ v)) as [Hin|Hout].
    + rewrite Resize_in_place by (done || lia). eexists. split; [done|].
      unfold wf, elements; simpl. split_and!; [|lia|lia|done| |done].
      * rewrite !length_app, length_take, length_replicate, length_drop. lia.
      * rewrite app_assoc. rewrite take_app_length'; [done|].
        rewrite length_app, length_take, length_replicate. lia.
    + destruct (Resize_reallocate v new_size) as (rest & Hrest & ->);
        [done|lia|].
      eexists. split; [done|].
      pose proof (to_size_t_le (2 * capacity_ v)).
      unfold wf, elements; simpl. split_and!; [| |unfold size_mul; lia|done| |done].
      * rewrite !length_app, length_take, length_replicate, Hrest. lia.
      * lia.
      * rewrite app_assoc. rewrite take_app_length'; [done|].
        rewrite length_app, length_take, length_replicate. lia.
Qed.
End resize_facts.

(** ** PushBack, Insert, Erase, Reserve *)

Section modifier_facts.
Context `{Platform} {T : Type} `{Element T}.
Implicit Types (v : SimpleVector T) (x : T).

Lemma length_elements v : wf v → length (elements v) = size_ v.
Proof. intros (Hlen & Hsz & _). unfold elements. rewrite length_take. lia. Qed.

Lemma lookup_elements v i :
  i < size_ v → elements v !! i = items_ v !! i.
Proof. intros Hi. unfold elements. by rewrite lookup_take_lt. Qed.

Lemma Resize_releases_false v new_size :
  new_size ≤ capacity_ v → Resize_releases v new_size = false.
Proof. intros Hle. apply bool_decide_eq_false. tauto. Qed.

Lemma Resize_releases_true v new_size :
  wf v → capacity_ v < new_size → Resize_releases v new_size = true.
Proof. intros (_ & ? & _) ?. apply bool_decide_eq_true. lia. Qed.

(** An argument that [refers_to] the value [x] is read as [x] after the
    vector has grown by one element. *)
Lemma read_argument_grown v v1 item x tail :
  wf v → refers_to v item x →
  size_ v < size_ v1 → size_ v1 ≤ length (items_ v1) →
  elements v1 = elements v ++ tail →
  read_argument (Resize_releases v (S (size_ v))) (items_ v1) item = Some x.
Proof.
  intros Hwf Hitem Hlt Hlen Hel. pose proof (length_elements v Hwf) as Hlenv.
  destruct item as [y|i]; simpl in *; [by subst|].
  destruct Hitem as [Hspare Hx].
  rewrite Resize_releases_false by lia.
  pose proof (lookup_lt_Some _ _ _ Hx) as Hi.
  unfold ArrayPtr.get. rewrite <- (lookup_elements v1) by lia.
  rewrite Hel. by rewrite lookup_app_l by lia.
Qed.

Lemma PushBack_spec v item x :
  wf v → size_ v < SIZE_MAX → refers_to v item x →
  ∃ v', PushBack v item = Some v' ∧
    wf v' ∧
    size_ v' = S (size_ v) ∧
    elements v' = elements v ++ [x] ∧
    capacity_ v' = (if decide (size_ v < capacity_ v) then capacity_ v
                    else S (size_ v) `max` size_mul 2 (capacity_ v)).
Proof.
  intros Hwf Hlt Hitem. unfold PushBack.
  rewrite size_add_small by lia. rewrite Nat.add_1_r.
  destruct (Resize_grow v (S (size_ v)))
    as (v1 & -> & (Hlen1 & Hsz1 & Hcap1) & Hsize1 & Hel1 & Hc1); [done|lia..|].
  simpl.
  rewrite (read_argument_grown v v1 item x _ Hwf Hitem) by (done || lia).
  simpl. rewrite Hsize1.
  rewrite size_sub_small by lia. simpl. rewrite Nat.sub_0_r.
  rewrite set_Some by lia. simpl. eexists. split; [done|].
  unfold wf, elements in *; simpl. rewrite length_insert.
  split_and!; [done|lia|done|done| |].
  - rewrite Hsize1 in *. clear Hc1.
    replace (S (size_ v) - size_ v) with 1 in Hel1 by lia. simpl in Hel1.
    rewrite take_insert_lt by lia. rewrite Hel1.
    assert (length (take (size_ v) (items_ v)) = size_ v) as Hl.
    { destruct Hwf as (? & ? & ?). rewrite length_take. lia. }
    rewrite insert_app_r_alt by lia. by rewrite Hl, Nat.sub_diag.
  - rewrite Hc1. destruct Hwf as (? & ? & ?).
    repeat case_decide; done || lia.
Qed.

(** On an object outside the storage the moving overload leaves the
    vector the copying overload leaves, and the object moved from. *)
Lemma PushBack_move_spec v x :
  PushBack_move v (external x)
  = (λ v', (v', external (moved_from x))) <$> PushBack v (external x).
Proof.
  unfold PushBack_move, PushBack.
  destruct (Resize _ _) as [v1|]; simpl; [|done].
  by destruct (ArrayPtr.set _ _ _).
Qed.

(** The logical sequence of the vector after an insertion at [index]:
    the value stored is the one the argument holds when it is read,
    after the elements have been shifted. *)
Lemma Insert_spec v index item x :
  wf v → index ≤ size_ v → size_ v < SIZE_MAX → refers_to v item x →
  ∃ v' y, Insert v index item = Some (index, v') ∧
    wf v' ∧
    size_ v' = S (size_ v) ∧
    elements v' = take index (elements v) ++ y :: drop index (elements v) ∧
    match item with
    | external _ => y = x
    | element j =>
        elements v !! (if decide (j ≤ index) then j else j - 1) = Some y
    end.
Proof.
  intros Hwf Hidx Hlt Hitem. unfold Insert. rewrite decide_True by done.
  rewrite size_add_small by lia. rewrite Nat.add_1_r.
  destruct (Resize_grow v (S (size_ v)))
    as (v1 & -> & (Hlen1 & Hsz1 & Hcap1) & Hsize1 & Hel1 & _); [done|lia..|].
  simpl. rewrite slot_Some by lia. simpl.
  rewrite Hsize1. rewrite size_sub_small by lia.
  simpl. rewrite Nat.sub_0_r.
  unfold std_copy_backward. rewrite decide_True by done.
  destruct (copy_backward_loop_spec (size_ v - index) (items_ v1) (size_ v))
    as (r & -> & Hr & Hlo & Hmid & Hhi); [lia..|].
  simpl.
  pose proof (length_elements v Hwf) as Hlenv.
  assert (∀ j, j < size_ v → items_ v1 !! j = elements v !! j) as Hv1.
  { intros j Hj. rewrite <- (lookup_take_lt _ (size_ v1)) by lia.
    fold (elements v1). rewrite Hel1. by rewrite lookup_app_l by lia. }
  assert (∃ y, read_argument (Resize_releases v (S (size_ v))) r item = Some y ∧
            match item with
            | external _ => y = x
            | element j =>
                elements v !! (if decide (j ≤ index) then j else j - 1) = Some y
            end) as (y & -> & Hy).
  { destruct item as [x'|j]; simpl in *; [exists x'; by subst|].
    destruct Hitem as [Hspare Hx].
    pose proof (lookup_lt_Some _ _ _ Hx) as Hj.
    rewrite Resize_releases_false by lia. unfold ArrayPtr.get.
    case_decide.
    - rewrite Hlo by lia. rewrite Hv1 by lia. by exists x.
    - rewrite Hmid by lia. rewrite Hv1 by lia.
      destruct (lookup_lt_is_Some_2 (elements v) (j - 1)) as [y Hy]; [lia|].
      by exists y. }
  simpl. rewrite set_Some by lia. simpl. eexists. exists y. split; [done|].
  unfold wf; simpl. rewrite length_insert.
  split_and!; [lia|lia|done|done| |done].
  unfold elements at 1; simpl.
  apply list_eq. intros i.
  destruct (decide (i < S (size_ v))) as [Hi|Hi].
  2:{ rewrite lookup_take_ge by lia. symmetry. apply lookup_ge_None.
      rewrite length_app, length_take; simpl. rewrite length_drop. lia. }
  rewrite lookup_take_lt by done.
  destruct (decide (i = index)) as [->|Hne].
  - rewrite list_lookup_insert_eq by lia.
    rewrite lookup_app_r by (rewrite length_take; lia).
    rewrite length_take, Nat.min_l, Nat.sub_diag by lia. done.
  - rewrite list_lookup_insert_ne by done.
    destruct (decide (i < index)) as [Hlo'|Hhi'].
    + rewrite Hlo by lia. rewrite Hv1 by lia.
      rewrite lookup_app_l by (rewrite length_take; lia).
      by rewrite lookup_take_lt by lia.
    + rewrite Hmid by lia. rewrite Hv1 by lia.
      rewrite lookup_app_r by (rewrite length_take; lia).
      rewrite length_take, Nat.min_l by lia.
      replace (i - index) with (S (i - index - 1)) by lia. simpl.
      rewrite lookup_drop. f_equal. lia.
Qed.

Lemma Insert_move_spec v index x :
  wf v → index ≤ size_ v → size_ v < SIZE_MAX →
  ∃ v', Insert_move v index (external x)
        = Some (index, v', external (moved_from x)) ∧
    wf v' ∧
    size_ v' = S (size_ v) ∧
    elements v' = take index (elements v) ++ x :: drop index (elements v).
Proof.
  intros Hwf Hidx Hlt. unfold Insert_move. rewrite decide_True by done.
  rewrite size_add_small by lia. rewrite Nat.add_1_r.
  destruct (Resize_grow v (S (size_ v)))
    as (v1 & -> & (Hlen1 & Hsz1 & Hcap1) & Hsize1 & Hel1 & _); [done|lia..|].
  simpl. rewrite slot_Some by lia. simpl.
  rewrite Hsize1. rewrite size_sub_small by lia.
  simpl. rewrite Nat.sub_0_r.
  unfold std_move_backward. rewrite decide_True by done.
  destruct (move_backward_loop_spec (size_ v - index) (items_ v1) (size_ v))
    as (r & -> & Hr & Hlo & Hmid & Hhi); [lia..|].
  simpl. rewrite set_Some by lia. simpl. eexists. split; [done|].
  pose proof (length_elements v Hwf) as Hlenv.
  unfold wf; simpl. rewrite length_insert.
  split_and!; [lia|lia|done|done|].
  unfold elements at 1; simpl.
  apply list_eq. intros i.
  destruct (decide (i < S (size_ v))) as [Hi|Hi].
  2:{ rewrite lookup_take_ge by lia. symmetry. apply lookup_ge_None.
      rewrite length_app, length_take; simpl. rewrite length_drop. lia. }
  rewrite lookup_take_lt by done.
  assert (∀ j, j < size_ v → items_ v1 !! j = elements v !! j) as Hv1.
  { intros j Hj. rewrite <- (lookup_take_lt _ (size_ v1)) by lia.
    fold (elements v1). rewrite Hel1. by rewrite lookup_app_l by lia. }
  destruct (decide (i = index)) as [->|Hne].
  - rewrite list_lookup_insert_eq by lia.
    rewrite lookup_app_r by (rewrite length_take; lia).
    rewrite length_take, Nat.min_l, Nat.sub_diag by lia. done.
  - rewrite list_lookup_insert_ne by done.
    destruct (decide (i < index)) as [Hlo'|Hhi'].
    + rewrite Hlo by lia. rewrite Hv1 by lia.
      rewrite lookup_app_l by (rewrite length_take; lia).
      by rewrite lookup_take_lt by lia.
    + rewrite Hmid by lia. rewrite Hv1 by lia.
      rewrite lookup_app_r by (rewrite length_take; lia).
      rewrite length_take, Nat.min_l by lia.
      replace (i - index) with (S (i - index - 1)) by lia. simpl.
      rewrite lookup_drop. f_equal. lia.
Qed.

(** A reference to an element of a full vector is dangling once the
    vector has grown: the four functions that read their parameter
    after [Resize] then have undefined behaviour. *)
Lemma self_reference_dangling v index i :
  wf v → size_ v = capacity_ v → size_ v < SIZE_MAX → index ≤ size_ v →
  PushBack v (element i) = None ∧
  PushBack_move v (element i) = None ∧
  Insert v index (element i) = None ∧
  Insert_move v index (element i) = None.
Proof.
  intros Hwf Hfull Hlt Hidx.
  unfold PushBack, PushBack_move, Insert, Insert_move.
  rewrite !decide_True by done.
  rewrite size_add_small by lia. rewrite Nat.add_1_r.
  rewrite Resize_releases_true by (done || lia).
  destruct (Resize_grow v (S (size_ v)))
    as (v1 & -> & (Hlen1 & Hsz1 & Hcap1) & Hsize1 & _); [done|lia..|].
  simpl. rewrite slot_Some by lia. simpl.
  rewrite Hsize1. rewrite size_sub_small by lia.
  simpl. rewrite Nat.sub_0_r.
  unfold std_copy_backward, std_move_backward. rewrite !decide_True by done.
  destruct (copy_backward_loop_spec (size_ v - index) (items_ v1) (size_ v))
    as (r & -> & _); [lia..|].
  destruct (move_backward_loop_spec (size_ v - index) (items_ v1) (size_ v))
    as (r' & -> & _); [lia..|].
  done.
Qed.

(** What [Erase] leaves: the capacity, one element less, the slots
    before [index] and those from the old size on untouched, and the
    elements after [index] one slot down. *)
Lemma Erase_spec v index :
  wf v → index < size_ v →
  ∃ v', Erase v index = Some (index, v') ∧
    wf v' ∧
    capacity_ v' = capacity_ v ∧
    size_ v' = size_ v - 1 ∧
    (∀ i, i < index → items_ v' !! i = items_ v !! i) ∧
    (∀ i, index ≤ i < size_ v - 1 → items_ v' !! i = items_ v !! S i) ∧
    (∀ i, size_ v ≤ i → items_ v' !! i = items_ v !! i).
Proof.
  intros (Hlen & Hsz & Hcap) Hidx. unfold Erase.
  rewrite decide_True by done.
  destruct (std_move_within_spec (items_ v) index (size_ v))
    as (r & -> & Hr & Hlo & Hmid & Hhi); [lia..|].
  simpl. rewrite slot_Some by lia. simpl.
  rewrite size_sub_small by lia.
  eexists. split; [done|]. unfold wf; simpl.
  split_and!; [lia|lia|done|done|done|done|done|done].
Qed.

Lemma Erase_elements v index :
  wf v → index < size_ v →
  ∃ v', Erase v index = Some (index, v') ∧
    wf v' ∧
    elements v' = take index (elements v) ++ drop (S index) (elements v).
Proof.
  intros Hwf Hidx.
  destruct (Erase_spec v index Hwf Hidx)
    as (v' & -> & Hwf' & Hcap' & Hsize' & Hlo & Hmid & Hhi).
  exists v'. split_and!; [done..|].
  pose proof (length_elements v Hwf) as Hlenv.
  pose proof (length_elements v' Hwf') as Hlenv'.
  apply list_eq. intros i.
  destruct (decide (i < size_ v')) as [Hi|Hi].
  2:{ rewrite lookup_ge_None_2 by lia. symmetry. apply lookup_ge_None.
      rewrite length_app, length_take, length_drop. lia. }
  rewrite lookup_elements by done.
  destruct (decide (i < index)) as [Hlt|Hge].
  - rewrite Hlo by done.
    rewrite lookup_app_l by (rewrite length_take; lia).
    rewrite lookup_take_lt by done. by rewrite lookup_elements by lia.
  - rewrite Hmid by lia.
    rewrite lookup_app_r by (rewrite length_take; lia).
    rewrite length_take, Nat.min_l by lia. rewrite lookup_drop.
    rewrite lookup_elements by lia. f_equal. lia.
Qed.

Lemma Reserve_spec v new_capacity :
  wf v → capacity_ v < new_capacity →
  ∃ rest, length rest = new_capacity - size_ v ∧
    Reserve v new_capacity
    = Some {| items_ := elements v ++ rest;
              size_ := size_ v;
              capacity_ := new_capacity |}.
Proof.
  intros (Hlen & Hsz & Hcap) Hlt. unfold Reserve.
  rewrite decide_True by done.
  rewrite std_copy_spec by (rewrite ?length_make; lia).
  simpl. rewrite Nat.sub_0_r, drop_0.
  eexists. split; [|done].
  rewrite length_drop, length_make. lia.
Qed.
End modifier_facts.

(** ** Comparisons *)

Section comparison_facts.
Context {T : Type} `{Element T}.
Implicit Types (xs ys : list T) (x y : T).

Lemma equal_loop_spec n : ∀ b1 first1 b2 first2,
  first1 + n ≤ length b1 → first2 + n ≤ length b2 →
  ∃ b, equal_loop n b1 first1 b2 first2 = Some b ∧
    (b = true ↔
     Forall2 (λ x y, elem_eq x y = true)
       (take n (drop first1 b1)) (take n (drop first2 b2))).
Proof.
  induction n as [|n IH]; intros b1 first1 b2 first2 H1 H2; simpl.
  - exists true. split; [done|]. by split; [constructor|].
  - destruct (lookup_lt_is_Some_2 b1 first1) as [x Hx]; [lia|].
    destruct (lookup_lt_is_Some_2 b2 first2) as [y Hy]; [lia|].
    unfold ArrayPtr.get. rewrite Hx, Hy. simpl.
    rewrite (drop_S _ x first1), (drop_S _ y first2) by done. simpl.
    destruct (elem_eq x y) eqn:Hxy.
    + destruct (IH b1 (S first1) b2 (S first2)) as (b & -> & Hb); [lia..|].
      exists b. split; [done|]. rewrite Hb. split.
      * by constructor.
      * by inversion 1.
    + exists false. split; [done|]. split; [done|].
      inversion 1; congruence.
Qed.

Lemma lexicographical_loop_spec n1 : ∀ n2 b1 first1 b2 first2,
  first1 + n1 ≤ length b1 → first2 + n2 ≤ length b2 →
  lexicographical_loop n1 n2 b1 first1 b2 first2
  = Some (lexicographic_lt (take n1 (drop first1 b1))
                           (take n2 (drop first2 b2))).
Proof.
  induction n1 as [|n1 IH]; intros [|n2] b1 first1 b2 first2 H1 H2; simpl.
  - done.
  - destruct (lookup_lt_is_Some_2 b2 first2) as [y Hy]; [lia|].
    by rewrite (drop_S _ y first2) by done.
  - destruct (lookup_lt_is_Some_2 b1 first1) as [x Hx]; [lia|].
    by rewrite (drop_S _ x first1) by done.
  - destruct (lookup_lt_is_Some_2 b1 first1) as [x Hx]; [lia|].
    destruct (lookup_lt_is_Some_2 b2 first2) as [y Hy]; [lia|].
    unfold ArrayPtr.get. rewrite Hx, Hy. simpl.
    rewrite (drop_S _ x first1), (drop_S _ y first2) by done. simpl.
    destruct (elem_lt x y); [done|]. destruct (elem_lt y x); [done|].
    apply IH; lia.
Qed.

Lemma lexicographic_lt_less xs : ∀ ys,
  lexicographic_lt xs ys = true ↔ lexicographic_less xs ys.
Proof.
  unfold lexicographic_less, equivalent.
  induction xs as [|x xs IH]; intros [|y ys]; simpl.
  - split; [done|]. intros (k & _ & _ & _ & [[_ ?]|(? & ? & ? & _)]).
    + lia.
    + by destruct k.
  - split; [|done]. intros _. exists 0. split_and!; [|lia..|].
    + intros; lia.
    + left. lia.
  - split; [done|]. intros (k & _ & _ & Hk & [[_ ?]|(? & ? & _ & ? & _)]).
    + lia.
    + by destruct k.
  - destruct (elem_lt x y) eqn:Hxy.
    { split; [|done]. intros _. exists 0. split_and!; [|lia..|].
      - intros; lia.
      - right. by exists x, y. }
    destruct (elem_lt y x) eqn:Hyx.
    { split; [done|]. intros ([|k] & Hagree & _ & _ & Hdecide).
      - destruct Hdecide as [[? _]|(? & ? & ? & ? & ?)]; [done|].
        simplify_eq/=. congruence.
      - destruct (Hagree 0 x y) as [_ ?]; [lia|done..|]. congruence. }
    rewrite IH. split.
    + intros (k & Hagree & Hk1 & Hk2 & Hdecide).
      exists (S k). split_and!; [|lia..|].
      * intros [|i] x' y' Hi Hx' Hy'; simplify_eq/=; [done|].
        eapply Hagree; [|done..]. lia.
      * destruct Hdecide as [[-> ?]|(x' & y' & ? & ? & ?)].
        -- left. split; [done|lia].
        -- right. by exists x', y'.
    + intros ([|k] & Hagree & Hk1 & Hk2 & Hdecide).
      * destruct Hdecide as [[? _]|(? & ? & ? & ? & ?)]; [done|].
        simplify_eq/=. congruence.
      * exists k. split_and!; [|lia..|].
        -- intros i x' y' Hi Hx' Hy'. apply (Hagree (S i)); [lia|done..].
        -- destruct Hdecide as [[? ?]|(x' & y' & ? & ? & ?)].
           ++ left. split; lia.
           ++ right. by exists x', y'.
Qed.

Lemma operator_eq_spec (lhs rhs : SimpleVector T) :
  size_ lhs ≤ length (items_ lhs) → size_ rhs ≤ length (items_ rhs) →
  ∃ b, operator_eq lhs rhs = Some b ∧
    (b = true ↔
     size_ lhs = size_ rhs ∧
     Forall2 (λ x y, elem_eq x y = true) (elements lhs) (elements rhs)).
Proof.
  intros Hl Hr. unfold operator_eq, std_equal, elements.
  rewrite decide_True by lia. rewrite !Nat.sub_0_r.
  destruct (decide (size_ lhs = size_ rhs)) as [Heq|Hne].
  - destruct (equal_loop_spec (size_ lhs) (items_ lhs) 0 (items_ rhs) 0)
      as (b & -> & Hb); [lia..|].
    exists b. split; [done|]. rewrite Hb, !drop_0, <- Heq.
    split; [by intros ?|by intros [_ ?]].
  - exists false. split; [done|]. split; [done|]. by intros [? _].
Qed.

Lemma operator_lt_spec (lhs rhs : SimpleVector T) :
  size_ lhs ≤ length (items_ lhs) → size_ rhs ≤ length (items_ rhs) →
  operator_lt lhs rhs
  = Some (lexicographic_lt (elements lhs) (elements rhs)).
Proof.
  intros Hl Hr. unfold operator_lt, std_lexicographical_compare, elements.
  rewrite decide_True by lia. rewrite !Nat.sub_0_r.
  rewrite lexicographical_loop_spec by lia. by rewrite !drop_0.
Qed.
End comparison_facts.

(** ** Runs of PushBack *)

Section push_facts.
Context `{Platform} {T : Type} `{Element T}.
Implicit Types (v : SimpleVector T) (x : T) (xs : list T).

Lemma doubling_capacity_ge k : k ≤ doubling_capacity k.
Proof.
  destruct k as [|[|k]]; simpl; [lia..|].
  apply (Nat.log2_up_spec (S (S k))). lia.
Qed.

Lemma doubling_capacity_pos k :
  0 < k → doubling_capacity k = 2 ^ Nat.log2_up k.
Proof. by destruct k; [lia|]. Qed.

Lemma doubling_capacity_S k :
  doubling_capacity (S k)
  = if decide (k < doubling_capacity k) then doubling_capacity k
    else S k `max` (2 * doubling_capacity k).
Proof.
  destruct (decide (k ≤ 1)) as [Hk|Hk]; [by destruct k as [|[|k]]; [..|lia]|].
  assert (1 < k) as Hn by lia.
  pose proof (Nat.log2_up_spec k Hn) as [Hlo Hhi].
  pose proof (Nat.log2_up_pos k Hn) as Hpos.
  rewrite !doubling_capacity_pos by lia.
  set (b := Nat.log2_up k) in *.
  case_decide as Hlt.
  - f_equal. apply Nat.log2_up_unique; [done|]. lia.
  - assert (k = 2 ^ b) as Hkb by lia.
    rewrite (Nat.log2_up_unique (S k) (S b)); [|lia|simpl; lia].
    simpl. lia.
Qed.

(** One admissible call on a vector that has gone through [k] calls. *)
Lemma push_admissible v call k :
  wf v → size_ v = k → capacity_ v = doubling_capacity k →
  k < SIZE_MAX → admissible k call →
  ∃ v' x, push v call = Some v' ∧
    wf v' ∧ size_ v' = S k ∧
    elements v' = elements v ++ [x] ∧
    capacity_ v' = (if decide (k < capacity_ v) then capacity_ v
                    else S k `max` size_mul 2 (capacity_ v)) ∧
    match call_argument call with
    | external y => x = y
    | element i => elements v !! i = Some x
    end.
Proof.
  intros Hwf <- Hcap Hmax Hcall.
  pose proof (length_elements v Hwf) as Hlenv.
  destruct call as [[y|i]|[y|i]]; simpl in *; [| | |done].
  - destruct (PushBack_spec v (external y) y) as (v' & -> & ? & ? & ? & ?);
      [done..|]. by exists v', y.
  - destruct Hcall as [Hi Hspare].
    destruct (lookup_lt_is_Some_2 (elements v) i) as [x Hx]; [lia|].
    destruct (PushBack_spec v (element i) x) as (v' & -> & ? & ? & ? & ?);
      [done|done|simpl; split; [lia|done]|].
    by exists v', x.
  - rewrite PushBack_move_spec.
    destruct (PushBack_spec v (external y) y) as (v' & -> & ? & ? & ? & ?);
      [done..|]. by exists v', y.
Qed.

(** The invariant of a run of admissible calls of [PushBack] on a
    default-constructed vector, after [k] calls. *)
Lemma push_calls_spec calls : ∀ v k pre,
  wf v → size_ v = k → capacity_ v = doubling_capacity k →
  elements v = pre →
  2 * (k + length calls) ≤ SIZE_MAX →
  (∀ j call, calls !! j = Some call → admissible (k + j) call) →
  ∃ tr xs, push_calls v calls = Some tr ∧
    length tr = S (length calls) ∧
    length xs = length calls ∧
    (∀ j call, calls !! j = Some call →
       xs !! j = match call_argument call with
                 | external x => Some x
                 | element i => (pre ++ xs) !! i
                 end) ∧
    ∀ j w, tr !! j = Some w →
      wf w ∧ size_ w = k + j ∧
      capacity_ w = doubling_capacity (k + j) ∧
      elements w = pre ++ take j xs.
Proof.
  induction calls as [|call calls IH];
    intros v k pre Hwf Hsize Hcap Hel Hmax Hadm; simpl.
  - exists [v], []. split_and!; [done..| |].
    + intros j call Hj. done.
    + intros [|j] w Hj; simplify_eq/=.
      rewrite Nat.add_0_r, (right_id_L [] (++)). done.
  - simpl in Hmax.
    pose proof (length_elements v Hwf) as Hlenv.
    destruct (push_admissible v call k)
      as (v' & x & -> & Hwf' & Hsize' & Hel' & Hcap' & Hx);
      [done|done|done|lia| |].
    { specialize (Hadm 0 call eq_refl). by rewrite Nat.add_0_r in Hadm. }
    simpl.
    destruct (IH v' (S k) (pre ++ [x]))
      as (tr & xs & -> & Hlen & Hlenx & Hxs & Htr); [done|done| | |lia| |].
    { rewrite Hcap', Hcap, doubling_capacity_S. clear Hcap'.
      pose proof (doubling_capacity_ge k).
      case_decide; [done|]. rewrite size_mul_small by lia. done. }
    { by rewrite Hel', Hel. }
    { intros j c Hj. replace (S k + j) with (k + S j) by lia.
      by apply (Hadm (S j)). }
    simpl. exists (v :: tr), (x :: xs).
    split_and!; [done|simpl; by rewrite Hlen|simpl; by rewrite Hlenx| |].
    + intros [|j] c Hj; simplify_eq/=.
      * destruct (call_argument c) as [y|i]; [by subst|].
        pose proof (lookup_lt_Some _ _ _ Hx).
        by rewrite lookup_app_l by done.
      * rewrite (Hxs j c Hj). destruct (call_argument c) as [y|i]; [done|].
        by rewrite <- (assoc_L (++)).
    + intros [|j] w Hj; simplify_eq/=.
      * rewrite Nat.add_0_r, (right_id_L [] (++)). done.
      * destruct (Htr j w Hj) as (? & ? & ? & ->).
        rewrite <- Nat.add_succ_comm, <- (assoc_L (++)). done.
Qed.
End push_facts.

(** * The claims *)

Section claims.
Context `{Platform} {T : Type} `{Element T}.
Implicit Types (v : SimpleVector T) (x : T) (xs : list T).
Implicit Types (h : gmap nat (SimpleVector T)).

Lemma doubling_capacity_step k :
  doubling_capacity k ≤ doubling_capacity (S k) ∧
  (doubling_capacity (S k) = doubling_capacity k ∨
   doubling_capacity (S k) = 2 * doubling_capacity k ∨
   (doubling_capacity k = 0 ∧ doubling_capacity (S k) = 1)).
Proof.
  rewrite doubling_capacity_S. pose proof (doubling_capacity_ge k).
  case_decide; lia.
Qed.

(** C2: [Resize(new_size)] has exactly three cases.  When
    [new_size <= size] only the size changes, the whole block is left
    as it was.  When [size < new_size <= capacity] the slots
    [size .. new_size) receive [Type()], the capacity, the prefix and
    the slots from [new_size] on are kept.  When [new_size > capacity]
    the new capacity is the maximum of [new_size] and of twice the old
    capacity (computed in [size_t], and equal to the mathematical
    [2 * capacity] whenever that is a [size_t]), the block has that
    many slots, the old elements form the prefix and are followed by
    [new_size - size] copies of [Type()]. *)
Theorem Resize_three_cases v new_size :
  wf v →
  (new_size ≤ GetSize v →
     Resize v new_size
     = Some {| items_ := items_ v;
               size_ := new_size;
               capacity_ := capacity_ v |}) ∧
  (GetSize v < new_size ≤ GetCapacity v →
     ∃ v', Resize v new_size = Some v' ∧
       GetSize v' = new_size ∧
       GetCapacity v' = GetCapacity v ∧
       items_ v' = elements v
                   ++ replicate (new_size - GetSize v) default_value
                   ++ drop new_size (items_ v)) ∧
  (GetCapacity v < new_size →
     ∃ v', Resize v new_size = Some v' ∧
       GetSize v' = new_size ∧
       GetCapacity v' = new_size `max` size_mul 2 (GetCapacity v) ∧
       (2 * GetCapacity v ≤ SIZE_MAX →
          GetCapacity v' = new_size `max` (2 * GetCapacity v)) ∧
       length (items_ v') = GetCapacity v' ∧
       elements v'
       = elements v ++ replicate (new_size - GetSize v) default_value).
Proof.
  intros Hwf. unfold GetSize, GetCapacity. split_and!.
  - apply Resize_shrink.
  - intros Hcase. rewrite Resize_in_place by done. by eexists.
  - intros Hcase. pose proof Hwf as (Hlen & Hsz & Hcap).
    destruct (Resize_reallocate v new_size Hwf Hcase) as (rest & Hrest & ->).
    eexists. split; [done|]. simpl. split_and!; [done|done| | |].
    + intros Hmul. by rewrite size_mul_small by lia.
    + rewrite !length_app, length_take, length_replicate, Hrest. lia.
    + unfold elements; simpl. rewrite app_assoc.
      rewrite take_app_length'; [done|].
      rewrite length_app, length_take, length_replicate. lia.
Qed.

(** C3, corrected: a run of [N] calls of [PushBack] on a
    default-constructed vector, with [2 * N] a [size_t], succeeds when
    every call is admissible: either overload on an object outside the
    storage of the vector, or the copying overload on an element of the
    vector when the call does not reallocate.  After [k] calls the size
    is [k], the elements are the first [k] pushed items in push order
    (the item of a call on an element being the value of that element),
    and the capacity is [0] for [k = 0] and the least power of two not
    below [k] otherwise; from one call to the next the capacity never
    decreases: it stays, doubles, or goes from [0] to [1] at the first
    allocation. *)
Theorem PushBack_sequence (calls : list (push_call T)) :
  2 * length calls ≤ SIZE_MAX →
  (∀ k call, calls !! k = Some call → admissible k call) →
  ∃ tr xs, push_calls SimpleVector_default calls = Some tr ∧
    length tr = S (length calls) ∧
    length xs = length calls ∧
    (∀ k call, calls !! k = Some call →
       xs !! k = match call_argument call with
                 | external x => Some x
                 | element i => xs !! i
                 end) ∧
    (∀ k v, tr !! k = Some v →
       GetSize v = k ∧
       elements v = take k xs ∧
       GetCapacity v = doubling_capacity k) ∧
    (∀ k v v', tr !! k = Some v → tr !! S k = Some v' →
       GetCapacity v ≤ GetCapacity v' ∧
       (GetCapacity v' = GetCapacity v ∨
        GetCapacity v' = 2 * GetCapacity v ∨
        (GetCapacity v = 0 ∧ GetCapacity v' = 1))).
Proof.
  intros Hmax Hadm.
  destruct (push_calls_spec calls SimpleVector_default 0 [])
    as (tr & xs & Htr & Hlen & Hlenx & Hxs & Hinv); [|done..|].
  { unfold wf; simpl. lia. }
  exists tr, xs. unfold GetSize, GetCapacity. split_and!; [done..| |].
  - intros k v Hk. by destruct (Hinv k v Hk) as (_ & ? & ? & ?).
  - intros k v v' Hk HSk.
    destruct (Hinv k v Hk) as (_ & _ & -> & _).
    destruct (Hinv (S k) v' HSk) as (_ & _ & -> & _).
    apply doubling_capacity_step.
Qed.

(** C4: moving from the vector at [rhs] into a distinct object at
    [this], by the move constructor (when [this] is not yet an object)
    or by move assignment (when it is), leaves the source with size 0
    and capacity 0 and gives the destination the size, the capacity and
    the element sequence the source had. *)
Theorem move_empties_source h this rhs v :
  h !! rhs = Some v → this ≠ rhs →
  ∃ h' d s,
    match h !! this with
    | Some _ => move_assign this rhs h
    | None => move_construct this rhs h
    end = Some h' ∧
    h' !! this = Some d ∧ h' !! rhs = Some s ∧
    GetSize s = 0 ∧ GetCapacity s = 0 ∧ elements s = [] ∧
    GetSize d = GetSize v ∧ GetCapacity d = GetCapacity v ∧
    elements d = elements v.
Proof.
  intros Hv Hne.
  exists (<[this := {| items_ := items_ v;
                       size_ := size_ v;
                       capacity_ := capacity_ v |}]>
          (<[rhs := {| items_ := []; size_ := 0; capacity_ := 0 |}]> h)).
  do 2 eexists. split_and!.
  - destruct (h !! this) as [t|] eqn:Ht.
    + unfold move_assign. rewrite Ht, Hv. simpl.
      by rewrite decide_True.
    + unfold move_construct. by rewrite Ht, Hv.
  - by rewrite lookup_insert_eq.
  - rewrite lookup_insert_ne by done. by rewrite lookup_insert_eq.
  - done.
  - done.
  - done.
  - done.
  - done.
  - done.
Qed.

(** C5: [At(index)] throws [std::out_of_range], with the message
    "Index is out of range", exactly when [index >= Size()]; whatever
    it throws, it is that exception and the vector is left as it was;
    and for [index < Size()] it returns the reference to slot [index]
    that the unchecked [operator[]] returns, through which element
    [index] is read. *)
Theorem At_checked v index :
  wf v →
  (At v index = Raised (out_of_range "Index is out of range") v
   ↔ GetSize v ≤ index) ∧
  (∀ e v', At v index = Raised e v' →
     e = out_of_range "Index is out of range" ∧ v' = v) ∧
  (index < GetSize v →
     ∃ r, At v index = Done r v ∧
       subscript v index = Some r ∧
       r = index ∧
       read v r = elements v !! index ∧
       is_Some (read v r)).
Proof.
  intros (Hlen & Hsz & Hcap). unfold GetSize, At, subscript, read.
  split_and!.
  - case_decide; [done|]. split; [|lia].
    by destruct (ArrayPtr.slot _ _).
  - intros e v'. case_decide.
    + intros [= <- <-]. done.
    + by destruct (ArrayPtr.slot _ _).
  - intros Hi. rewrite decide_False by lia. rewrite decide_True by done.
    rewrite slot_Some by lia. exists index. split_and!; [done..| |].
    + unfold ArrayPtr.get. by rewrite lookup_elements.
    + apply lookup_lt_is_Some_2. lia.
Qed.

(** C6, corrected: on a well-formed vector of size below [SIZE_MAX],
    inserting at a valid index ([0 <= index <= Size()]) and then erasing
    at the same index both succeed, keep the position, and give back the
    element sequence the vector had before the insertion, when the value
    is an object outside the storage of the vector (copying or moving
    overload) or, for the copying overload, an element of the vector
    itself and the vector has spare capacity. *)
Theorem Insert_then_Erase v index item x :
  wf v → index ≤ GetSize v → GetSize v < SIZE_MAX →
  refers_to v item x →
  (∃ v1 v2, Insert v index item = Some (index, v1) ∧
     Erase v1 index = Some (index, v2) ∧
     elements v2 = elements v) ∧
  (∃ v1 v2, Insert_move v index (external x)
            = Some (index, v1, external (moved_from x)) ∧
     Erase v1 index = Some (index, v2) ∧
     elements v2 = elements v).
Proof.
  unfold GetSize. intros Hwf Hidx Hmax Hitem.
  pose proof (length_elements v Hwf) as Hlenv.
  assert (∀ v1 y, wf v1 → size_ v1 = S (size_ v) →
            elements v1 = take index (elements v)
                          ++ y :: drop index (elements v) →
            ∃ v2, Erase v1 index = Some (index, v2) ∧
              elements v2 = elements v) as Hback.
  { intros v1 y Hwf1 Hsize1 Hel1.
    destruct (Erase_elements v1 index) as (v2 & -> & _ & Hel2); [done|lia|].
    exists v2. split; [done|]. rewrite Hel2, Hel1.
    rewrite take_app_length' by (rewrite length_take; lia).
    rewrite drop_app_ge by (rewrite length_take; lia).
    rewrite length_take, Nat.min_l by lia.
    replace (S index - index) with 1 by lia. simpl. rewrite drop_0.
    apply take_drop. }
  split.
  - destruct (Insert_spec v index item x) as (v1 & y & -> & ? & ? & ? & _);
      [done..|].
    destruct (Hback v1 y) as (v2 & ? & ?); [done..|]. by exists v1, v2.
  - destruct (Insert_move_spec v index x) as (v1 & -> & ? & ? & ?); [done..|].
    destruct (Hback v1 x) as (v2 & ? & ?); [done..|]. by exists v1, v2.
Qed.

(** C7: assigning the object at [this] to itself, by copy (whether or
    not copying an element could throw) or by move, leaves every object
    of the heap, that one included, as it was. *)
Theorem self_assignment (cp : T → option T) h this v :
  h !! this = Some v →
  copy_assign cp this this h = Done () h ∧
  move_assign this this h = Some h.
Proof.
  intros Hv. unfold copy_assign, move_assign. rewrite Hv. simpl.
  by rewrite !decide_False by (intros Hne; by apply Hne).
Qed.

(** C8: [Reserve(n)] with [n <= Capacity()] returns the vector
    unchanged; with [n > Capacity()] it gives a block of exactly [n]
    slots and capacity [n], and keeps the size and every element at an
    index below the size. *)
Theorem Reserve_frame v n :
  wf v →
  (n ≤ GetCapacity v → Reserve v n = Some v) ∧
  (GetCapacity v < n →
     ∃ v', Reserve v n = Some v' ∧
       GetCapacity v' = n ∧
       length (items_ v') = n ∧
       GetSize v' = GetSize v ∧
       elements v' = elements v ∧
       ∀ i, i < GetSize v → items_ v' !! i = items_ v !! i).
Proof.
  intros Hwf. unfold GetSize, GetCapacity. split.
  - intros Hle. unfold Reserve. by rewrite decide_False by lia.
  - intros Hlt. pose proof (length_elements v Hwf) as Hlenv.
    pose proof Hwf as (Hlen & Hsz & Hcap).
    destruct (Reserve_spec v n Hwf Hlt) as (rest & Hrest & ->).
    eexists. split; [done|]. simpl. split_and!; [done| |done| |].
    + rewrite length_app. lia.
    + unfold elements at 1; simpl. by rewrite take_app_length'.
    + intros i Hi. rewrite lookup_app_l by lia. by apply lookup_elements.
Qed.

(** For every element type, [operator==] answers, and answers
    [true] exactly when the sizes are equal and the elements at equal
    indices are equal by [operator==] of the element type;
    [operator<] answers, and answers [true] exactly when the left
    sequence is lexicographically less: the sequences agree up to some
    position where either the left one ends and the right one goes on,
    or the left element is less than the right one.  The slots past the
    size and the capacity play no part. *)
Lemma comparisons_spec (lhs rhs : SimpleVector T) :
  wf lhs → wf rhs →
  (∃ b, operator_eq lhs rhs = Some b ∧
     (b = true ↔
      GetSize lhs = GetSize rhs ∧
      ∀ i x y, elements lhs !! i = Some x → elements rhs !! i = Some y →
        elem_eq x y = true)) ∧
  (∃ b, operator_lt lhs rhs = Some b ∧
     (b = true ↔ lexicographic_less (elements lhs) (elements rhs))).
Proof.
  intros Hl Hr.
  pose proof (length_elements lhs Hl) as Hlenl.
  pose proof (length_elements rhs Hr) as Hlenr.
  destruct Hl as (Hl1 & Hl2 & _), Hr as (Hr1 & Hr2 & _). split.
  - destruct (operator_eq_spec lhs rhs) as (b & -> & Hb); [lia..|].
    exists b. split; [done|]. rewrite Hb. unfold GetSize.
    rewrite Forall2_same_length_lookup, Hlenl, Hlenr. tauto.
  - rewrite operator_lt_spec by lia. eexists. split; [done|].
    apply lexicographic_lt_less.
Qed.

(** C10: [PopBack] and [Erase] never reallocate: the capacity and the
    number of slots of the block are what they were.  [PopBack] leaves
    every slot untouched and removes one from the size, or leaves an
    empty vector as it is; [Erase] at a position below the size removes
    one from the size, leaves the slots before the position and those
    from the old size on untouched, and shifts the elements after the
    position one slot down. *)
Theorem removal_keeps_capacity v index :
  wf v →
  (GetCapacity (PopBack v) = GetCapacity v ∧
   items_ (PopBack v) = items_ v ∧
   GetSize (PopBack v) = GetSize v - 1 ∧
   (GetSize v = 0 → PopBack v = v)) ∧
  (index < GetSize v →
     ∃ v', Erase v index = Some (index, v') ∧
       GetCapacity v' = GetCapacity v ∧
       length (items_ v') = length (items_ v) ∧
       GetSize v' = GetSize v - 1 ∧
       (∀ i, i < index → items_ v' !! i = items_ v !! i) ∧
       (∀ i, index ≤ i < GetSize v - 1 → items_ v' !! i = items_ v !! S i) ∧
       (∀ i, GetSize v ≤ i → items_ v' !! i = items_ v !! i)).
Proof.
  intros Hwf. unfold GetSize, GetCapacity. split.
  - destruct Hwf as (Hlen & Hsz & Hcap). unfold PopBack.
    case_decide; simpl; split_and!; try done; try lia.
    rewrite size_sub_small by lia. done.
  - intros Hidx.
    destruct (Erase_spec v index Hwf Hidx)
      as (v' & -> & (Hlen' & _) & Hcap' & ? & ? & ? & ?).
    destruct Hwf as (Hlen & _).
    exists v'. split_and!; [done..|lia|done|done|done|done].
Qed.
End claims.

(** C9: [operator==] holds exactly when the two logical sequences have
    the same size and pairwise equal elements, whatever the capacities
    and the slots past the sizes; [operator<] is the lexicographic
    order of the logical sequences: they agree up to a position where
    either the left one ends and the right one goes on (a strict prefix
    sorts first) or the left element is less than the right one (the
    first differing element decides).  In particular
    [{1,2,3} == {1,2,3}], [{1,2} < {1,2,3}] and [{1,3} > {1,2,3}]. *)
Theorem comparisons_lexicographic `{Platform} {T : Type} `{Element T}
    (lhs rhs : SimpleVector T) :
  wf lhs → wf rhs →
  (∃ b, operator_eq lhs rhs = Some b ∧
     (b = true ↔
      GetSize lhs = GetSize rhs ∧
      ∀ i x y, elements lhs !! i = Some x → elements rhs !! i = Some y →
        elem_eq x y = true)) ∧
  (∃ b, operator_lt lhs rhs = Some b ∧
     (b = true ↔ lexicographic_less (elements lhs) (elements rhs))) ∧
  (a ← FromList [1; 2; 3]; b ← FromList [1; 2; 3]; int_eq a b)%Z = Some true ∧
  (a ← FromList [1; 2]; b ← FromList [1; 2; 3]; int_lt a b)%Z = Some true ∧
  (a ← FromList [1; 3]; b ← FromList [1; 2; 3]; int_gt a b)%Z = Some true.
Proof.
  intros Hl Hr.
  destruct (comparisons_spec lhs rhs Hl Hr) as [Heq Hlt].
  split_and!; [done|done|reflexivity..].
Qed.

(** * The claims on [int] elements and a 16-bit [size_t] *)

Section examples.
#[local] Existing Instances size_t_16 int_element.
Open Scope Z_scope.

Lemma wf_sample : wf sample.
Proof.
  unfold wf. split_and!; [reflexivity|simpl; lia|].
  apply Nat.leb_le. reflexivity.
Qed.

(** C1: the copy assignment of the source exchanges the blocks before
    it copies the elements.  With the target [{1,2,3}] at location 0,
    the source [{7,8,9}] at location 1 and a copy that throws on the
    element [8], the exception leaves the target with the new block,
    holding the one element copied so far and two indeterminate
    values: the target has not kept its elements. *)
Theorem copy_assign_not_atomic :
  ∃ h', copy_assign copy_unless_8 0 1 sample_heap
        = Raised element_exception h' ∧
    sample_heap !! 0%nat
    = Some {| items_ := [1; 2; 3]; size_ := 3; capacity_ := 3 |} ∧
    h' !! 0%nat
    = Some {| items_ := [7; -2; -3]; size_ := 3; capacity_ := 3 |} ∧
    h' !! 0%nat ≠ sample_heap !! 0%nat.
Proof.
  eexists. split_and!.
  - vm_compute. reflexivity.
  - reflexivity.
  - reflexivity.
  - vm_compute. discriminate.
Qed.

Lemma Resize_three_cases_witness :
  Resize sample 3
  = Some {| items_ := items_ sample; size_ := 3; capacity_ := 8 |} ∧
  (∃ v', Resize sample 7 = Some v' ∧
     GetCapacity v' = 8%nat ∧
     items_ v' = [1; 2; 3; 4; 5; 0; 0; -8]) ∧
  (∃ v', Resize sample 9 = Some v' ∧
     GetCapacity v' = 16%nat ∧
     elements v' = [1; 2; 3; 4; 5; 0; 0; 0; 0]).
Proof.
  split_and!.
  - apply (Resize_three_cases sample 3 wf_sample). simpl. lia.
  - destruct (Resize_three_cases sample 7 wf_sample)
      as (_ & (v' & Hv' & _ & Hcap & Hitems) & _); [simpl; lia|].
    exists v'. split_and!; [exact Hv'|exact Hcap|exact Hitems].
  - destruct (Resize_three_cases sample 9 wf_sample)
      as (_ & _ & (v' & Hv' & _ & _ & Hcap & _ & Hel)); [simpl; lia|].
    exists v'. split_and!; [exact Hv'| |exact Hel].
    apply Hcap. apply Nat.leb_le. reflexivity.
Defined.

(** The claim C3 as it was stated fails on two runs.  After
    [PushBack(7)] the vector is full, and [PushBack(v[0])] reads its
    parameter after [Resize] has released the block the parameter
    refers to: the behaviour is undefined.  With elements that are
    left empty when moved from, [PushBack(std::move(v[0]))] after three
    calls leaves the first element moved from: it is no longer the
    first item pushed. *)
Lemma PushBack_sequence_counterexample :
  push_calls SimpleVector_default [by_copy (external 7); by_copy (element 0)]
  = None ∧
  (elements <$>
     (@push_calls size_t_16 Z handle_element SimpleVector_default
        [by_copy (external 1); by_copy (external 2); by_copy (external 3);
         by_move (element 0)] ≫= last))
  = Some [0; 2; 3; 1].
Proof. split; vm_compute; reflexivity. Qed.

Lemma PushBack_sequence_witness :
  ∃ tr, push_calls SimpleVector_default
          [by_copy (external 1); by_move (external 2); by_copy (external 3);
           by_copy (element 0); by_move (external 5)] = Some tr ∧
    (GetCapacity <$> tr) = [0; 1; 2; 4; 4; 8]%nat ∧
    (elements <$> last tr) = Some [1; 2; 3; 1; 5].
Proof.
  destruct (PushBack_sequence
              [by_copy (external 1); by_move (external 2);
               by_copy (external 3); by_copy (element 0);
               by_move (external 5)])
    as (tr & xs & Htr & Hlen & Hlenx & Hxs & Hk & _).
  { apply Nat.leb_le. reflexivity. }
  { intros [|[|[|[|[|k]]]]] call Hcall; simpl in Hcall;
      try discriminate Hcall; injection Hcall as <-; simpl; try exact I.
    split; [lia|]. vm_compute. lia. }
  exists tr. split; [exact Htr|].
  destruct xs as [|x0 [|x1 [|x2 [|x3 [|x4 [|]]]]]]; try discriminate Hlenx.
  pose proof (Hxs 0%nat _ eq_refl) as H0.
  pose proof (Hxs 1%nat _ eq_refl) as H1.
  pose proof (Hxs 2%nat _ eq_refl) as H2.
  pose proof (Hxs 3%nat _ eq_refl) as H3.
  pose proof (Hxs 4%nat _ eq_refl) as H4.
  simpl in H0, H1, H2, H3, H4.
  injection H0 as ->. injection H1 as ->. injection H2 as ->.
  injection H3 as ->. injection H4 as ->.
  destruct tr as [|v0 [|v1 [|v2 [|v3 [|v4 [|v5 [|]]]]]]]; try discriminate Hlen.
  destruct (Hk 0%nat v0 eq_refl) as (_ & _ & C0).
  destruct (Hk 1%nat v1 eq_refl) as (_ & _ & C1).
  destruct (Hk 2%nat v2 eq_refl) as (_ & _ & C2).
  destruct (Hk 3%nat v3 eq_refl) as (_ & _ & C3).
  destruct (Hk 4%nat v4 eq_refl) as (_ & _ & C4).
  destruct (Hk 5%nat v5 eq_refl) as (_ & Hel & C5).
  simpl. rewrite C0, C1, C2, C3, C4, C5, Hel. split; reflexivity.
Defined.

Lemma move_empties_source_witness :
  (∃ h', move_assign 0 1 sample_heap = Some h' ∧
     (GetCapacity <$> h' !! 1%nat) = Some 0%nat ∧
     (elements <$> h' !! 1%nat) = Some [] ∧
     (elements <$> h' !! 0%nat) = Some [7; 8; 9]) ∧
  (∃ h', move_construct 2 1 sample_heap = Some h' ∧
     (GetCapacity <$> h' !! 1%nat) = Some 0%nat ∧
     (elements <$> h' !! 1%nat) = Some [] ∧
     (elements <$> h' !! 2%nat) = Some [7; 8; 9]).
Proof.
  split.
  - destruct (move_empties_source sample_heap 0 1
                {| items_ := [7; 8; 9]; size_ := 3; capacity_ := 3 |})
      as (h' & d & s & Hm & Hd & Hs & _ & Hcap & Hs_el & _ & _ & Hd_el);
      [reflexivity|lia|].
    exists h'. rewrite Hd, Hs. simpl. rewrite Hcap, Hs_el, Hd_el.
    split_and!; [exact Hm|reflexivity..].
  - destruct (move_empties_source sample_heap 2 1
                {| items_ := [7; 8; 9]; size_ := 3; capacity_ := 3 |})
      as (h' & d & s & Hm & Hd & Hs & _ & Hcap & Hs_el & _ & _ & Hd_el);
      [reflexivity|lia|].
    exists h'. rewrite Hd, Hs. simpl. rewrite Hcap, Hs_el, Hd_el.
    split_and!; [exact Hm|reflexivity..].
Defined.

Lemma At_checked_witness :
  At sample 5 = Raised (out_of_range "Index is out of range") sample ∧
  At sample 4 = Done 4%nat sample ∧
  read sample 4 = Some 5.
Proof.
  destruct (At_checked sample 5 wf_sample) as ([_ Hthrow] & _ & _).
  destruct (At_checked sample 4 wf_sample)
    as (_ & _ & (r & Hr & _ & -> & Hread & _)); [simpl; lia|].
  split_and!.
  - apply Hthrow. simpl. lia.
  - exact Hr.
  - rewrite Hread. reflexivity.
Defined.

(** The claim C6 as it was stated fails on two inputs.  On the full
    vector [{1,2,3}], [Insert(begin(), v[0])] reads its parameter after
    [Resize] has released the block it refers to: the behaviour is
    undefined and there is nothing to erase.  With elements that are
    left empty when moved from, on [{1,2,3}] with capacity 4,
    [Insert(begin(), std::move(v[2]))] followed by [Erase(begin())]
    gives [{1,0,3}]. *)
Lemma Insert_then_Erase_counterexample :
  Insert full3 0 (element 0) = None ∧
  elements spare3 = [1; 2; 3] ∧
  ∃ v1 v2, @Insert_move size_t_16 Z handle_element spare3 0 (element 2)
           = Some (0%nat, v1, element 2) ∧
    @Erase size_t_16 Z handle_element v1 0 = Some (0%nat, v2) ∧
    elements v2 = [1; 0; 3].
Proof.
  split; [vm_compute; reflexivity|]. split; [reflexivity|].
  eexists. eexists. split; [vm_compute; reflexivity|].
  split; [vm_compute; reflexivity|reflexivity].
Qed.

Lemma Insert_then_Erase_witness :
  (∃ v1 v2, Insert sample 2 (external 42) = Some (2%nat, v1) ∧
     Erase v1 2 = Some (2%nat, v2) ∧
     elements v2 = [1; 2; 3; 4; 5]) ∧
  (∃ v1 v2, Insert sample 0 (element 2) = Some (0%nat, v1) ∧
     Erase v1 0 = Some (0%nat, v2) ∧
     elements v2 = [1; 2; 3; 4; 5]) ∧
  (∃ v1 v2, Insert_move sample 5 (external 42)
            = Some (5%nat, v1, external 42) ∧
     Erase v1 5 = Some (5%nat, v2) ∧
     elements v2 = [1; 2; 3; 4; 5]).
Proof.
  split_and!.
  - apply (Insert_then_Erase sample 2 (external 42) 42 wf_sample).
    + simpl. lia.
    + apply Nat.ltb_lt. reflexivity.
    + reflexivity.
  - apply (Insert_then_Erase sample 0 (element 2) 3 wf_sample).
    + simpl. lia.
    + apply Nat.ltb_lt. reflexivity.
    + split; [simpl; lia|reflexivity].
  - destruct (Insert_then_Erase sample 5 (external 42) 42 wf_sample)
      as [_ Hmove].
    + simpl. lia.
    + apply Nat.ltb_lt. reflexivity.
    + reflexivity.
    + exact Hmove.
Defined.

Lemma self_assignment_witness :
  copy_assign copy_unless_8 0 0 sample_heap = Done () sample_heap ∧
  move_assign 0 0 sample_heap = Some sample_heap.
Proof.
  apply (self_assignment copy_unless_8 sample_heap 0
           {| items_ := [1; 2; 3]; size_ := 3; capacity_ := 3 |}).
  reflexivity.
Defined.

Lemma Reserve_frame_witness :
  Reserve sample 8 = Some sample ∧
  (∃ v', Reserve sample 10 = Some v' ∧
     GetCapacity v' = 10%nat ∧
     GetSize v' = 5%nat ∧
     elements v' = [1; 2; 3; 4; 5]).
Proof.
  split.
  - apply (Reserve_frame sample 8 wf_sample). simpl. lia.
  - destruct (Reserve_frame sample 10 wf_sample)
      as (_ & (v' & Hv' & Hcap & _ & Hsize & Hel & _)); [simpl; lia|].
    exists v'. split_and!; [exact Hv'|exact Hcap|exact Hsize|exact Hel].
Defined.

Lemma comparisons_lexicographic_witness :
  (∃ b, operator_eq sample sample = Some b ∧
     (b = true ↔
      GetSize sample = GetSize sample ∧
      ∀ i x y, elements sample !! i = Some x →
        elements sample !! i = Some y → elem_eq x y = true)) ∧
  (∃ b, operator_lt sample sample = Some b ∧
     (b = true ↔ lexicographic_less (elements sample) (elements sample))).
Proof.
  destruct (comparisons_lexicographic sample sample wf_sample wf_sample)
    as (Heq & Hlt & _).
  split; [exact Heq|exact Hlt].
Defined.

Lemma removal_keeps_capacity_witness :
  GetCapacity (PopBack sample) = 8%nat ∧
  GetSize (PopBack sample) = 4%nat ∧
  (∃ v', Erase sample 1 = Some (1%nat, v') ∧
     GetCapacity v' = 8%nat ∧
     GetSize v' = 4%nat).
Proof.
  destruct (removal_keeps_capacity sample 1 wf_sample)
    as ((Hcap & _ & Hsize & _) & Herase).
  split_and!; [exact Hcap|exact Hsize|].
  destruct Herase as (v' & Hv' & Hcap' & _ & Hsize' & _); [simpl; lia|].
  exists v'. split_and!; [exact Hv'|exact Hcap'|exact Hsize'].
Defined.
End examples.

(** * Further properties of the container *)

(** ** Construction *)

Section construction.
Context `{Platform} {T : Type} `{Element T}.
Implicit Types (v : SimpleVector T) (x : T) (xs : list T).

Lemma drop_make n : drop n (ArrayPtr.make (T := T) n) = [].
Proof. apply drop_ge. by rewrite length_make. Qed.

(** X1: a vector that [SimpleVector(size)] or [SimpleVector(size,
    value)] has constructed, for a size that is a [size_t], is well
    formed, has that size and that capacity, and every slot of its block
    holds [Type()], respectively the given value: the constructor
    overwrites whatever [new Type[size]] had left there. *)
Theorem sized_constructors n value :
  n ≤ SIZE_MAX →
  (∀ v, SimpleVector_sized n = Some v →
     wf v ∧ GetSize v = n ∧ GetCapacity v = n ∧
     items_ v = replicate n default_value) ∧
  (∀ v, SimpleVector_fill n value = Some v →
     wf v ∧ GetSize v = n ∧ GetCapacity v = n ∧
     items_ v = replicate n value).
Proof.
  intros Hn. unfold SimpleVector_sized, SimpleVector_fill.
  rewrite !std_fill_spec by (rewrite ?length_make; lia).
  simpl. rewrite Nat.sub_0_r, drop_make, !(right_id_L [] (++)).
  split; intros v [= <-]; unfold wf; simpl;
    rewrite length_replicate; split_and!; done.
Qed.

(** X2: the constructor from an initializer list succeeds; size and
    capacity are the length of the list and the block holds the items
    of the list, in order. *)
Theorem init_constructor (init : list T) :
  length init ≤ SIZE_MAX →
  ∃ v, SimpleVector_init init = Some v ∧ wf v ∧
    GetSize v = length init ∧ GetCapacity v = length init ∧
    items_ v = init ∧ elements v = init.
Proof.
  intros Hn. unfold SimpleVector_init.
  rewrite std_copy_spec by (rewrite ?length_make; lia).
  simpl. rewrite Nat.sub_0_r, drop_0, drop_make, (right_id_L [] (++)).
  rewrite firstn_all. eexists. split; [done|].
  unfold wf, elements; simpl. rewrite firstn_all. split_and!; done.
Qed.

Lemma SimpleVector_copy_spec (other : SimpleVector T) :
  wf other →
  ∃ v, SimpleVector_copy other = Some v ∧ wf v ∧
    GetSize v = GetSize other ∧
    GetCapacity v = GetCapacity other ∧
    elements v = elements other.
Proof.
  intros Hwf. pose proof (length_elements other Hwf) as Hlen.
  destruct Hwf as (Hl & Hs & Hc). unfold SimpleVector_copy.
  rewrite std_copy_spec by (rewrite ?length_make; lia).
  simpl. rewrite Nat.sub_0_r, drop_0. fold (elements other).
  eexists. split; [done|]. unfold wf; simpl.
  rewrite length_app, length_drop, length_make, Hlen.
  split_and!; [lia|done|done|done|done|].
  unfold elements at 1; simpl. by rewrite take_app_length'.
Qed.

(** X3: the copy constructor makes a deep copy of a well-formed vector:
    it succeeds, the copy is well formed, has the size and the capacity
    of the original and the same element sequence, in a block of its
    own of [capacity_] slots. *)
Theorem copy_constructor (other : SimpleVector T) :
  wf other →
  ∃ v, SimpleVector_copy other = Some v ∧ wf v ∧
    GetSize v = GetSize other ∧
    GetCapacity v = GetCapacity other ∧
    length (items_ v) = GetCapacity other ∧
    elements v = elements other.
Proof.
  intros Hwf.
  destruct (SimpleVector_copy_spec other Hwf)
    as (v & Hv & Hwfv & Hsize & Hcap & Hel).
  exists v. split_and!; [done..| |done].
  destruct Hwfv as (Hlen & _). unfold GetCapacity in *. congruence.
Qed.
End construction.

(** ** Modifiers *)

Section modifiers.
Context `{Platform} {T : Type} `{Element T}.
Implicit Types (v : SimpleVector T) (x : T) (xs : list T).

Lemma wf_Clear v : wf v → wf (Clear v).
Proof. intros (? & ? & ?). unfold wf; simpl. split_and!; [done|lia|done]. Qed.

Lemma wf_PopBack v : wf v → wf (PopBack v).
Proof.
  intros (? & ? & ?). unfold PopBack. case_decide; [|done].
  unfold wf; simpl. rewrite size_sub_small by lia. split_and!; [done|lia|done].
Qed.

Lemma elements_PopBack v :
  wf v → elements (PopBack v) = take (size_ v - 1) (elements v).
Proof.
  intros (? & ? & ?). unfold PopBack, elements. case_decide; simpl.
  - rewrite size_sub_small by lia. rewrite take_take. f_equal. lia.
  - rewrite take_take. f_equal. lia.
Qed.

(** X4: no modifier breaks the representation invariant or lowers the
    capacity.  On a well-formed vector, whenever [Resize] or [Reserve]
    (for an argument that is a [size_t]), [PushBack] or [Insert] (on a
    vector of size below [SIZE_MAX], by either overload and for every
    argument, a reference to an element of the vector included) or
    [Erase] returns, the vector it leaves is well formed and its
    capacity is not below the old one; the same holds of [PopBack] and
    [Clear], which always return. *)
Theorem modifiers_keep_invariant v n index item :
  wf v →
  (n ≤ SIZE_MAX → ∀ v', Resize v n = Some v' →
     wf v' ∧ capacity_ v ≤ capacity_ v') ∧
  (n ≤ SIZE_MAX → ∀ v', Reserve v n = Some v' →
     wf v' ∧ capacity_ v ≤ capacity_ v') ∧
  (size_ v < SIZE_MAX → ∀ v', PushBack v item = Some v' →
     wf v' ∧ capacity_ v ≤ capacity_ v') ∧
  (size_ v < SIZE_MAX → ∀ v' a, PushBack_move v item = Some (v', a) →
     wf v' ∧ capacity_ v ≤ capacity_ v') ∧
  (size_ v < SIZE_MAX → ∀ p v', Insert v index item = Some (p, v') →
     wf v' ∧ capacity_ v ≤ capacity_ v') ∧
  (size_ v < SIZE_MAX → ∀ p v' a, Insert_move v index item = Some (p, v', a) →
     wf v' ∧ capacity_ v ≤ capacity_ v') ∧
  (∀ p v', Erase v index = Some (p, v') →
     wf v' ∧ capacity_ v ≤ capacity_ v') ∧
  (wf (PopBack v) ∧ capacity_ v ≤ capacity_ (PopBack v)) ∧
  (wf (Clear v) ∧ capacity_ v ≤ capacity_ (Clear v)).
Proof.
  intros Hwf. pose proof Hwf as (Hlen & Hsz & Hcap).
  assert (∀ m, m ≤ SIZE_MAX →
            ∃ v', Resize v m = Some v' ∧ wf v' ∧ size_ v' = m ∧
              capacity_ v ≤ capacity_ v') as Hresize.
  { intros m Hm. destruct (decide (m ≤ size_ v)) as [Hle|Hgt].
    - rewrite Resize_shrink by done. eexists. split; [done|].
      unfold wf; simpl. split_and!; [done|lia|done|done|done].
    - destruct (Resize_grow v m) as (v' & -> & ? & ? & _ & Hc); [done|lia..|].
      exists v'. split_and!; [done..|]. rewrite Hc. case_decide; lia. }
  assert (∀ block i x block',
            ArrayPtr.set block i x = Some block' →
            length block' = length block) as Hset.
  { intros block i x block'. unfold ArrayPtr.set. case_decide; [|done].
    intros [= <-]. apply length_insert. }
  assert (∀ block a x block' a',
            move_from_argument block a x = Some (block', a') →
            length block' = length block) as Hmoved.
  { intros block [y|i] x block' a'; simpl; [by intros [= <- _]|].
    destruct (ArrayPtr.set block i (moved_from x)) as [b|] eqn:Hb; [|done].
    simpl. intros [= <- _]. by apply Hset in Hb. }
  refine (conj _ (conj _ (conj _ (conj _ (conj _ (conj _ (conj _
            (conj _ _)))))))).
  - intros Hn v' Hv'. destruct (Hresize n Hn) as (v1 & Hv1 & ? & _ & ?).
    by simplify_eq.
  - intros Hn v'. destruct (decide (capacity_ v < n)) as [Hlt|Hge].
    + destruct (Reserve_spec v n Hwf Hlt) as (rest & Hrest & ->).
      intros [= <-]. unfold wf; simpl.
      rewrite length_app, (length_elements v Hwf), Hrest.
      split_and!; lia.
    + unfold Reserve. rewrite decide_False by done. intros [= <-].
      split; [done|lia].
  - intros Hmax v'. unfold PushBack.
    rewrite size_add_small by lia. rewrite Nat.add_1_r.
    destruct (Hresize (S (size_ v))) as (v1 & -> & (Hl1 & Hs1 & Hc1) & Hsize1 & ?);
      [lia|].
    simpl. destruct (read_argument _ _ _) as [x|]; [|done]. simpl.
    destruct (ArrayPtr.set _ _ _) as [b|] eqn:Hb; [|done].
    simpl. intros [= <-]. apply Hset in Hb.
    unfold wf; simpl. split_and!; [congruence|done|done|done].
  - intros Hmax v' a. unfold PushBack_move.
    rewrite size_add_small by lia. rewrite Nat.add_1_r.
    destruct (Hresize (S (size_ v))) as (v1 & -> & (Hl1 & Hs1 & Hc1) & Hsize1 & ?);
      [lia|].
    simpl. destruct (read_argument _ _ _) as [x|]; [|done]. simpl.
    destruct (ArrayPtr.set _ _ _) as [b|] eqn:Hb; [|done]. simpl.
    destruct (move_from_argument _ _ _) as [[b' a']|] eqn:Hb'; [|done].
    simpl. intros [= <- _]. apply Hset in Hb. apply Hmoved in Hb'.
    unfold wf; simpl. split_and!; [congruence|done|done|done].
  - intros Hmax p v'. unfold Insert. case_decide; [|done].
    rewrite size_add_small by lia. rewrite Nat.add_1_r.
    destruct (Hresize (S (size_ v))) as (v1 & -> & (Hl1 & Hs1 & Hc1) & Hsize1 & ?);
      [lia|].
    simpl. rewrite slot_Some by lia. simpl.
    rewrite Hsize1. rewrite size_sub_small by lia. simpl. rewrite Nat.sub_0_r.
    unfold std_copy_backward. rewrite decide_True by done.
    destruct (copy_backward_loop_spec (size_ v - index) (items_ v1) (size_ v))
      as (r & -> & Hr & _); [lia..|].
    simpl. destruct (read_argument _ _ _) as [x|]; [|done]. simpl.
    destruct (ArrayPtr.set _ _ _) as [b|] eqn:Hb; [|done].
    simpl. intros [= _ <-]. apply Hset in Hb.
    unfold wf; simpl. split_and!; [congruence|lia|done|done].
  - intros Hmax p v' a. unfold Insert_move. case_decide; [|done].
    rewrite size_add_small by lia. rewrite Nat.add_1_r.
    destruct (Hresize (S (size_ v))) as (v1 & -> & (Hl1 & Hs1 & Hc1) & Hsize1 & ?);
      [lia|].
    simpl. rewrite slot_Some by lia. simpl.
    rewrite Hsize1. rewrite size_sub_small by lia. simpl. rewrite Nat.sub_0_r.
    unfold std_move_backward. rewrite decide_True by done.
    destruct (move_backward_loop_spec (size_ v - index) (items_ v1) (size_ v))
      as (r & -> & Hr & _); [lia..|].
    simpl. destruct (read_argument _ _ _) as [x|]; [|done]. simpl.
    destruct (ArrayPtr.set _ _ _) as [b|] eqn:Hb; [|done]. simpl.
    destruct (move_from_argument _ _ _) as [[b' a']|] eqn:Hb'; [|done].
    simpl. intros [= _ <- _]. apply Hset in Hb. apply Hmoved in Hb'.
    unfold wf; simpl. split_and!; [congruence|lia|done|done].
  - intros p v' He. destruct (decide (index < size_ v)) as [Hidx|Hidx].
    + destruct (Erase_spec v index Hwf Hidx) as (v1 & Hv1 & ? & Hc & _).
      rewrite Hv1 in He. injection He as _ <-. split; [done|lia].
    + unfold Erase in He. by rewrite decide_False in He.
  - split; [by apply wf_PopBack|]. unfold PopBack. case_decide; simpl; lia.
  - split; [by apply wf_Clear|simpl; lia].
Qed.

Lemma push_trace_within_capacity xs : ∀ v,
  wf v → size_ v + length xs ≤ capacity_ v →
  ∃ tr w, push_trace v xs = Some tr ∧
    (∀ u, u ∈ tr → wf u ∧ GetCapacity u = GetCapacity v) ∧
    last tr = Some w ∧
    GetSize w = GetSize v + length xs ∧
    elements w = elements v ++ xs.
Proof.
  unfold GetSize, GetCapacity.
  induction xs as [|x xs IH]; intros v Hwf Hfit; simpl in *.
  - exists [v], v. split_and!; [done| |done|lia|by rewrite (right_id_L [] (++))].
    intros u ->%list_elem_of_singleton. done.
  - pose proof Hwf as (Hlen & Hsz & Hcap).
    destruct (PushBack_spec v (external x) x)
      as (v' & -> & Hwf' & Hsize' & Hel' & Hcap'); [done|lia|done|].
    rewrite decide_True in Hcap' by lia. simpl.
    destruct (IH v') as (tr & w & -> & Hall & Hlast & Hsize & Hel);
      [done|lia|].
    simpl. exists (v :: tr), w. split_and!; [done| | |lia|].
    + intros u [->|Hu]%elem_of_cons; [done|].
      destruct (Hall u Hu) as [? ->]. done.
    + destruct tr; [done|]. done.
    + rewrite Hel, Hel', <- (assoc_L (++)). done.
Qed.

(** X5: while the size stays within the capacity, [PushBack] does not
    reallocate: along a run of calls that fits the capacity every state
    has the capacity of the start, and the run ends with the pushed
    items appended in order. *)
Theorem PushBack_within_capacity v xs :
  wf v → GetSize v + length xs ≤ GetCapacity v →
  ∃ tr w, push_trace v xs = Some tr ∧
    (∀ u, u ∈ tr → wf u ∧ GetCapacity u = GetCapacity v) ∧
    last tr = Some w ∧
    GetSize w = GetSize v + length xs ∧
    elements w = elements v ++ xs.
Proof. intros Hwf Hfit. by apply push_trace_within_capacity. Qed.

(** X6: a vector constructed from [Reserve(n)] is empty with capacity
    [n], and pushing up to [n] items into it never changes the capacity:
    the run ends with exactly the pushed items and capacity [n]. *)
Theorem reserved_then_PushBack n xs :
  n ≤ SIZE_MAX → length xs ≤ n →
  IsEmpty (SimpleVector_reserved (T := T) (Reserve_proxy n)) = true ∧
  GetCapacity (SimpleVector_reserved (T := T) (Reserve_proxy n)) = n ∧
  ∃ tr w, push_trace (SimpleVector_reserved (Reserve_proxy n)) xs = Some tr ∧
    (∀ u, u ∈ tr → GetCapacity u = n) ∧
    last tr = Some w ∧ elements w = xs.
Proof.
  intros Hn Hxs. split_and!; [done..|].
  destruct (push_trace_within_capacity xs
              (SimpleVector_reserved (Reserve_proxy n)))
    as (tr & w & Htr & Hall & Hlast & _ & Hel).
  { unfold wf; simpl. rewrite length_make. split_and!; [done|lia|done]. }
  { simpl. lia. }
  exists tr, w. split_and!; [done| |done|done].
  intros u Hu. by destruct (Hall u Hu).
Qed.

(** X7: [Clear] keeps the block and the capacity and makes the vector
    empty; the values it leaves in the block never come back: growing
    again with [Resize(n)], [n] within the capacity, gives [n] copies of
    [Type()] without reallocation. *)
Theorem Clear_then_Resize v n :
  wf v → n ≤ GetCapacity v →
  IsEmpty (Clear v) = true ∧
  items_ (Clear v) = items_ v ∧
  GetCapacity (Clear v) = GetCapacity v ∧
  ∃ v', Resize (Clear v) n = Some v' ∧
    GetCapacity v' = GetCapacity v ∧
    elements v' = replicate n default_value.
Proof.
  unfold GetCapacity. intros Hwf Hn. pose proof Hwf as (Hlen & Hsz & Hcap).
  split_and!; [done..|].
  destruct (Resize_grow (Clear v) n) as (v' & -> & _ & _ & Hel & Hc);
    [by apply wf_Clear|simpl; lia|lia|].
  exists v'. split_and!; [done| |].
  - rewrite Hc. simpl. by rewrite decide_True.
  - rewrite Hel. unfold elements; simpl. by rewrite Nat.sub_0_r.
Qed.

(** X8: shrinking with [Resize] and growing back does not bring the
    truncated elements back: after [Resize(k)], [k] within the size, and
    [Resize(n)], [n] from [k] on, the elements are the first [k] old ones
    followed by [n - k] copies of [Type()]. *)
Theorem Resize_shrink_then_grow v k n :
  wf v → k ≤ GetSize v → k ≤ n → n ≤ SIZE_MAX →
  ∃ v1 v2, Resize v k = Some v1 ∧ Resize v1 n = Some v2 ∧
    GetSize v2 = n ∧
    elements v2 = take k (elements v) ++ replicate (n - k) default_value.
Proof.
  unfold GetSize. intros Hwf Hk Hkn Hn. pose proof Hwf as (Hlen & Hsz & Hcap).
  rewrite Resize_shrink by done. eexists.
  match goal with |- context [Some ?u = Some _] => set (v1 := u) end.
  destruct (Resize_grow v1 n) as (v2 & Hv2 & _ & Hsize & Hel & _);
    [unfold wf; simpl; split_and!; [done|lia|done]|done..|].
  exists v2. split_and!; [done..|].
  rewrite Hel. unfold elements; simpl. by rewrite take_take, Nat.min_l by lia.
Qed.

(** X9: [Insert] of an object outside the storage of the vector, at a
    position up to the end and on a vector of size below [SIZE_MAX],
    puts the value at that position and shifts the elements from there
    on by one; it returns the position of the inserted element, through
    which the value is read; the copying and the moving overload leave
    the same element sequence, the moving one leaves the object moved
    from. *)
Theorem Insert_effect v index x :
  wf v → index ≤ GetSize v → GetSize v < SIZE_MAX →
  ∃ v1 v2, Insert v index (external x) = Some (index, v1) ∧
    Insert_move v index (external x)
    = Some (index, v2, external (moved_from x)) ∧
    elements v1 = take index (elements v) ++ x :: drop index (elements v) ∧
    elements v2 = elements v1 ∧
    GetSize v1 = S (GetSize v) ∧
    read v1 index = Some x ∧ read v2 index = Some x.
Proof.
  unfold GetSize. intros Hwf Hidx Hmax.
  pose proof (length_elements v Hwf) as Hlenv.
  destruct (Insert_spec v index (external x) x)
    as (v1 & y & -> & Hwf1 & Hs1 & Hel1 & ->); [done..|].
  destruct (Insert_move_spec v index x) as (v2 & -> & Hwf2 & Hs2 & Hel2);
    [done..|].
  exists v1, v2.
  assert (∀ u, size_ u = S (size_ v) →
            elements u = take index (elements v) ++ x :: drop index (elements v) →
            read u index = Some x) as Hread.
  { intros u Hsu Hel. unfold read, ArrayPtr.get.
    rewrite <- lookup_elements by lia. rewrite Hel.
    rewrite lookup_app_r by (rewrite length_take; lia).
    by rewrite length_take, Nat.min_l, Nat.sub_diag by lia. }
  split_and!; [done|done|done|congruence|done|by apply Hread..].
Qed.

(** X21: [Insert(pos, v[j])] on a vector with spare capacity reads its
    parameter after the elements have been shifted: for [j] up to the
    insertion index the value of element [j] is inserted, for [j] past
    it the value that has been shifted into slot [j], that of element
    [j - 1]. *)
Theorem Insert_own_element v index j :
  wf v → index ≤ GetSize v → j < GetSize v → GetSize v < GetCapacity v →
  ∃ v1 y, Insert v index (element j) = Some (index, v1) ∧
    elements v1 = take index (elements v) ++ y :: drop index (elements v) ∧
    (j ≤ index → elements v !! j = Some y) ∧
    (index < j → elements v !! (j - 1) = Some y).
Proof.
  unfold GetSize, GetCapacity. intros Hwf Hidx Hj Hspare.
  pose proof (length_elements v Hwf) as Hlenv.
  pose proof Hwf as (_ & _ & Hcap).
  destruct (lookup_lt_is_Some_2 (elements v) j) as [x Hx]; [lia|].
  destruct (Insert_spec v index (element j) x)
    as (v1 & y & -> & _ & _ & Hel1 & Hy); [done|done|lia|by split|].
  exists v1, y. split_and!; [done..| |].
  - intros Hle. by rewrite decide_True in Hy.
  - intros Hlt. by rewrite decide_False in Hy by lia.
Qed.

(** X22: on a full vector (size equal to capacity, below [SIZE_MAX]) a
    parameter that refers to an element of the vector itself is read
    after [Resize] has released the block it refers to: [PushBack] and
    [Insert], by either overload, have undefined behaviour. *)
Theorem self_reference_undefined v index i :
  wf v → GetSize v = GetCapacity v → GetSize v < SIZE_MAX →
  index ≤ GetSize v →
  PushBack v (element i) = None ∧
  PushBack_move v (element i) = None ∧
  Insert v index (element i) = None ∧
  Insert_move v index (element i) = None.
Proof. apply self_reference_dangling. Qed.

(** X10: [Erase] at a position before the end removes the element at
    that position and keeps the order of the others; the position it
    returns designates the element that followed the erased one, or is
    the end when the last element was erased. *)
Theorem Erase_effect v index :
  wf v → index < GetSize v →
  ∃ v', Erase v index = Some (index, v') ∧
    GetSize v' = GetSize v - 1 ∧
    elements v' = take index (elements v) ++ drop (S index) (elements v) ∧
    elements v' !! index = elements v !! S index ∧
    (index = GetSize v - 1 → index = GetSize v').
Proof.
  unfold GetSize. intros Hwf Hidx.
  pose proof (length_elements v Hwf) as Hlenv.
  destruct (Erase_spec v index Hwf Hidx) as (v' & He & _ & _ & Hsize & _).
  destruct (Erase_elements v index Hwf Hidx) as (v'' & He' & _ & Hel).
  rewrite He in He'. injection He' as <-.
  exists v'. split_and!; [done..| |lia].
  rewrite Hel. rewrite lookup_app_r by (rewrite length_take; lia).
  rewrite length_take, Nat.min_l, Nat.sub_diag by lia.
  rewrite lookup_drop. f_equal. lia.
Qed.

(** X11: [PushBack] followed by [PopBack] gives back the element
    sequence and the size; in between, the pushed item is the last
    element.  The item is an object outside the storage of the vector,
    or an element of the vector itself when it has spare capacity. *)
Theorem PushBack_then_PopBack v item x :
  wf v → GetSize v < SIZE_MAX → refers_to v item x →
  ∃ v', PushBack v item = Some v' ∧
    read v' (GetSize v) = Some x ∧
    GetSize (PopBack v') = GetSize v ∧
    elements (PopBack v') = elements v.
Proof.
  unfold GetSize. intros Hwf Hmax Hitem.
  pose proof (length_elements v Hwf) as Hlenv.
  destruct (PushBack_spec v item x Hwf Hmax Hitem)
    as (v' & -> & Hwf' & Hsize & Hel & _).
  exists v'. split_and!; [done| | |].
  - unfold read, ArrayPtr.get. rewrite <- lookup_elements by lia.
    rewrite Hel. rewrite lookup_app_r by lia. by rewrite Hlenv, Nat.sub_diag.
  - destruct Hwf' as (? & ? & ?). unfold PopBack.
    rewrite decide_True by lia. simpl. rewrite size_sub_small by lia. lia.
  - rewrite elements_PopBack by done. rewrite Hel, Hsize.
    rewrite take_app_length'; [done|lia].
Qed.

(** X12: [Insert] at the end is [PushBack]: on a well-formed vector of
    size below [SIZE_MAX] and for every argument, each overload of
    [Insert] at [end()] does what the same overload of [PushBack] does,
    undefined behaviour included, and returns the position of the new
    last element. *)
Theorem Insert_at_end v item :
  wf v → GetSize v < SIZE_MAX →
  Insert v (GetSize v) item
  = (λ v', (GetSize v, v')) <$> PushBack v item ∧
  Insert_move v (GetSize v) item
  = (λ r, (GetSize v, r.1, r.2)) <$> PushBack_move v item.
Proof.
  unfold GetSize. intros Hwf Hmax.
  unfold PushBack, PushBack_move, Insert, Insert_move.
  rewrite !decide_True by done.
  rewrite size_add_small by lia. rewrite Nat.add_1_r.
  destruct (Resize_grow v (S (size_ v)))
    as (v1 & -> & (Hl1 & Hs1 & Hc1) & Hsize1 & _); [done|lia..|].
  simpl. rewrite slot_Some by lia. simpl.
  rewrite Hsize1. rewrite size_sub_small by lia.
  simpl. rewrite Nat.sub_0_r.
  unfold std_copy_backward, std_move_backward.
  rewrite !decide_True by done. rewrite Nat.sub_diag. simpl.
  destruct (read_argument _ _ _) as [x|]; simpl; [|done].
  destruct (ArrayPtr.set _ _ _) as [b|]; simpl; [|done].
  split; [done|]. by destruct (move_from_argument _ _ _) as [[b' a']|].
Qed.

(** X13: [Erase] of the last element is [PopBack]: on a non-empty
    vector it leaves the very vector [PopBack] leaves, the block
    untouched, and returns the end. *)
Theorem Erase_last v :
  wf v → 0 < GetSize v →
  Erase v (GetSize v - 1) = Some (GetSize v - 1, PopBack v) ∧
  items_ (PopBack v) = items_ v ∧
  GetSize (PopBack v) = GetSize v - 1.
Proof.
  unfold GetSize. intros (Hlen & Hsz & Hcap) Hpos.
  unfold Erase, PopBack. rewrite !decide_True by lia.
  unfold std_move_within. rewrite decide_True by lia.
  replace (size_ v - (size_ v - 1 + 1)) with 0 by lia. simpl.
  rewrite slot_Some by lia. simpl.
  rewrite size_sub_small by lia. done.
Qed.
End modifiers.

(** ** Assignment *)

Section assignment.
Context `{Platform} {T : Type} `{Element T}.
Implicit Types (v t r : SimpleVector T) (x : T) (cp : T → option T).
Implicit Types (h : gmap nat (SimpleVector T)).

(** The copy loop when the first [k] copies succeed: it either ends
    there, or the next copy throws and the destination keeps the [k]
    elements written. *)
Lemma copy_loop_throwing_prefix cp k : ∀ n src first dst d,
  k ≤ n → first + n ≤ length src → d + n ≤ length dst →
  (∀ i x, i < k → src !! (first + i) = Some x → cp x = Some x) →
  (k = n ∨ ∃ x, src !! (first + k) = Some x ∧ cp x = None) →
  copy_loop_throwing cp n src first dst d
  = (if decide (k = n) then Done () else Raised element_exception)
      (take d dst ++ take k (drop first src) ++ drop (d + k) dst).
Proof.
  induction k as [|k IH]; intros n src first dst d Hk Hs Hd Hok Hend.
  - rewrite Nat.add_0_r, take_0. simpl. rewrite take_drop.
    destruct n as [|n]; simpl; [done|].
    destruct Hend as [?|(x & Hx & Hthrow)]; [done|].
    rewrite Nat.add_0_r in Hx. unfold ArrayPtr.get. rewrite Hx.
    rewrite decide_True by lia. by rewrite Hthrow.
  - destruct n as [|n]; [lia|]. simpl.
    destruct (lookup_lt_is_Some_2 src first) as [x Hx]; [lia|].
    unfold ArrayPtr.get. rewrite Hx. rewrite decide_True by lia.
    rewrite (Hok 0 x) by (lia || by rewrite Nat.add_0_r).
    rewrite (IH n src (S first) (<[d := x]> dst) (S d));
      [|lia|lia|rewrite length_insert; lia| |].
    + assert (take (S d) (<[d:=x]> dst) ++ take k (drop (S first) src)
              ++ drop (S d + k) (<[d:=x]> dst)
              = take d dst ++ take (S k) (drop first src)
                ++ drop (d + S k) dst) as ->; [|repeat case_decide; done || lia].
      rewrite take_insert_lt by lia.
      rewrite drop_insert_lt by lia.
      destruct (lookup_lt_is_Some_2 dst d) as [y Hy]; [lia|].
      rewrite (take_S_r _ _ y) by done.
      rewrite insert_app_r_alt by (rewrite length_take; lia).
      rewrite length_take, Nat.min_l, Nat.sub_diag by lia. simpl.
      rewrite <- (assoc_L (++)). simpl.
      rewrite (drop_S _ x first) by done. simpl.
      by rewrite Nat.add_succ_r.
    + intros i y Hi Hy. apply (Hok (S i)); [lia|].
      by rewrite Nat.add_succ_r.
    + destruct Hend as [?|(y & Hy & Hthrow)]; [left; lia|right].
      exists y. by rewrite Nat.add_succ_r in Hy.
Qed.

(** X14: when no element copy throws, copy assignment from a distinct,
    well-formed source ends normally; the target then has the size, the
    capacity and the element sequence of the source, in a block of its
    own, and every other object, the source included, is as before. *)
Theorem copy_assign_copies cp h this rhs t r :
  h !! this = Some t → h !! rhs = Some r → this ≠ rhs → wf r →
  (∀ x, x ∈ elements r → cp x = Some x) →
  ∃ h' t', copy_assign cp this rhs h = Done () h' ∧
    h' !! this = Some t' ∧
    wf t' ∧
    GetSize t' = GetSize r ∧ GetCapacity t' = GetCapacity r ∧
    elements t' = elements r ∧
    ∀ l, l ≠ this → h' !! l = h !! l.
Proof.
  intros Ht Hr Hne Hwf Hcp. pose proof (length_elements r Hwf) as Hlenr.
  destruct Hwf as (Hlen & Hsz & Hcap).
  unfold copy_assign, std_copy_throwing. rewrite Ht, Hr. cbv beta iota.
  rewrite decide_True by done. unfold ArrayPtr.swap.
  rewrite decide_True by lia.
  rewrite Nat.sub_0_r.
  rewrite (copy_loop_throwing_prefix cp (size_ r));
    [|lia|lia|rewrite length_make; lia| |by left].
  2:{ intros i x Hi Hx. apply Hcp. apply list_elem_of_lookup. exists i.
      by rewrite lookup_elements. }
  rewrite decide_True by done. simpl. rewrite drop_0. fold (elements r).
  do 2 eexists. split; [done|]. rewrite lookup_insert_eq.
  split; [done|]. unfold wf; simpl.
  rewrite length_app, length_drop, length_make, Hlenr.
  split_and!; [lia|done|done|done|done| |].
  - unfold elements at 1; simpl. by rewrite take_app_length'.
  - intros l Hl. by rewrite lookup_insert_ne.
Qed.

(** X15: when the copy of the element at index [k] of the source is the
    first that throws, copy assignment leaves the exception to the
    caller; the source and every other object are as before, the target
    keeps its [size_] and [capacity_], but its block is the new one: the
    [k] elements copied so far, followed by what the allocation left. *)
Theorem copy_assign_throws cp h this rhs t r k x :
  h !! this = Some t → h !! rhs = Some r → this ≠ rhs → wf r →
  k < GetSize r →
  (∀ i y, i < k → items_ r !! i = Some y → cp y = Some y) →
  items_ r !! k = Some x → cp x = None →
  ∃ h' t', copy_assign cp this rhs h = Raised element_exception h' ∧
    h' !! this = Some t' ∧
    GetSize t' = GetSize t ∧ GetCapacity t' = GetCapacity t ∧
    items_ t' = take k (items_ r)
                ++ drop k (ArrayPtr.make (GetCapacity r)) ∧
    ∀ l, l ≠ this → h' !! l = h !! l.
Proof.
  unfold GetSize, GetCapacity.
  intros Ht Hr Hne (Hlen & Hsz & Hcap) Hk Hok Hx Hthrow.
  unfold copy_assign, std_copy_throwing. rewrite Ht, Hr. cbv beta iota.
  rewrite decide_True by done. unfold ArrayPtr.swap.
  rewrite decide_True by lia.
  rewrite Nat.sub_0_r.
  rewrite (copy_loop_throwing_prefix cp k);
    [|lia|lia|rewrite length_make; lia|done|right; by exists x].
  rewrite decide_False by lia. simpl. rewrite drop_0.
  do 2 eexists. split; [done|]. rewrite lookup_insert_eq.
  split_and!; [done..|]. intros l Hl. by rewrite lookup_insert_ne.
Qed.

Lemma move_assign_distinct h this rhs t r :
  h !! this = Some t → h !! rhs = Some r → this ≠ rhs →
  move_assign this rhs h
  = Some (<[this := {| items_ := items_ r;
                       size_ := size_ r;
                       capacity_ := capacity_ r |}]>
          (<[rhs := {| items_ := []; size_ := 0; capacity_ := 0 |}]> h)).
Proof.
  intros Ht Hr Hne. unfold move_assign. rewrite Ht, Hr. simpl.
  by rewrite decide_True.
Qed.

(** X16: move assignment into a distinct object and back: the first
    move hands the block over, the second returns it; in the end the
    object moved from first has its size, capacity and block again, the
    other one is empty with capacity 0 (what it held is gone), and no
    third object has changed. *)
Theorem move_assign_there_and_back h this rhs t r :
  h !! this = Some t → h !! rhs = Some r → this ≠ rhs →
  ∃ h1 h2 r' t', move_assign this rhs h = Some h1 ∧
    move_assign rhs this h1 = Some h2 ∧
    h2 !! rhs = Some r' ∧ h2 !! this = Some t' ∧
    GetSize r' = GetSize r ∧ GetCapacity r' = GetCapacity r ∧
    items_ r' = items_ r ∧
    GetSize t' = 0 ∧ GetCapacity t' = 0 ∧ items_ t' = [] ∧
    ∀ l, l ≠ this → l ≠ rhs → h2 !! l = h !! l.
Proof.
  intros Ht Hr Hne.
  rewrite (move_assign_distinct h this rhs t r) by done.
  eexists. eexists. eexists. eexists. split; [done|].
  erewrite move_assign_distinct;
    [|by rewrite lookup_insert_ne, lookup_insert_eq
     |by rewrite lookup_insert_eq|done].
  split; [done|]. rewrite lookup_insert_eq.
  rewrite lookup_insert_ne, lookup_insert_eq by done.
  split_and!; [done..|].
  intros l Hl1 Hl2. by rewrite !lookup_insert_ne by done.
Qed.
End assignment.

(** ** Comparisons of vectors *)

Section comparisons.
Context `{Platform} {T : Type} `{Element T}.
Implicit Types (v a b c : SimpleVector T) (x y z : T) (xs ys zs : list T).

Lemma size_elements_eq a b :
  wf a → wf b → elements a = elements b → size_ a = size_ b.
Proof.
  intros Ha Hb Hel.
  by rewrite <- (length_elements a Ha), <- (length_elements b Hb), Hel.
Qed.

Lemma wf_bounds v : wf v → size_ v ≤ length (items_ v).
Proof. intros (? & ? & ?). lia. Qed.

Lemma lexicographic_lt_asym xs :
  (∀ x y, elem_lt x y = true → elem_lt y x = false) →
  ∀ ys, lexicographic_lt xs ys = true → lexicographic_lt ys xs = false.
Proof.
  intros Hasym. induction xs as [|x xs IH]; intros [|y ys]; simpl; try done.
  destruct (elem_lt x y) eqn:Hxy.
  - intros _. by rewrite (Hasym x y Hxy).
  - destruct (elem_lt y x); [done|]. apply IH.
Qed.

Lemma lexicographic_lt_trans xs :
  (∀ x y, elem_lt x y = true → elem_lt y x = false) →
  (∀ x y z, elem_lt x y = true → elem_lt x z = true ∨ elem_lt z y = true) →
  ∀ ys zs, lexicographic_lt xs ys = true → lexicographic_lt ys zs = true →
    lexicographic_lt xs zs = true.
Proof.
  intros Hasym Hneg.
  induction xs as [|x xs IH]; intros [|y ys] [|z zs]; simpl; try done.
  destruct (elem_lt x y) eqn:Hxy.
  - intros _. destruct (elem_lt y z) eqn:Hyz.
    + intros _. destruct (Hneg x y z Hxy) as [-> |Hzy]; [done|].
      rewrite (Hasym z y Hzy) in Hyz. done.
    + destruct (elem_lt z y) eqn:Hzy; [done|]. intros _.
      destruct (Hneg x y z Hxy) as [-> |Hzy']; [done|congruence].
  - destruct (elem_lt y x) eqn:Hyx; [done|]. intros Hxs.
    destruct (elem_lt y z) eqn:Hyz.
    + intros _. destruct (Hneg y z x Hyz) as [Hyx'| ->]; [congruence|done].
    + destruct (elem_lt z y) eqn:Hzy; [done|]. intros Hys.
      destruct (elem_lt x z) eqn:Hxz; [done|].
      destruct (elem_lt z x) eqn:Hzx.
      * destruct (Hneg z x y Hzx); congruence.
      * by apply (IH ys zs).
Qed.

Lemma Forall2_elem_eq_lexicographic xs :
  (∀ x y, elem_eq x y = negb (elem_lt x y) && negb (elem_lt y x)) →
  ∀ ys, Forall2 (λ x y, elem_eq x y = true) xs ys ↔
        lexicographic_lt xs ys = false ∧ lexicographic_lt ys xs = false.
Proof.
  intros Hcompat. induction xs as [|x xs IH]; intros [|y ys]; simpl.
  - split; [done|constructor].
  - split; [inversion 1|by intros [? _]].
  - split; [inversion 1|by intros [_ ?]].
  - rewrite Forall2_cons, IH, Hcompat.
    destruct (elem_lt x y), (elem_lt y x); simpl; intuition congruence.
Qed.

(** X17: the six comparisons of two well-formed vectors depend on
    their element sequences only: vectors with the same elements
    compare the same way, whatever their capacities and whatever lies
    in their blocks past the size. *)
Theorem comparisons_depend_on_elements a a' b b' :
  wf a → wf a' → wf b → wf b' →
  elements a = elements a' → elements b = elements b' →
  operator_eq a b = operator_eq a' b' ∧
  operator_ne a b = operator_ne a' b' ∧
  operator_lt a b = operator_lt a' b' ∧
  operator_le a b = operator_le a' b' ∧
  operator_gt a b = operator_gt a' b' ∧
  operator_ge a b = operator_ge a' b'.
Proof.
  intros Ha Ha' Hb Hb' Hela Helb.
  pose proof (size_elements_eq a a' Ha Ha' Hela) as Hsa.
  pose proof (size_elements_eq b b' Hb Hb' Helb) as Hsb.
  assert (operator_eq a b = operator_eq a' b') as Heq.
  { destruct (operator_eq_spec a b) as (e & -> & He); [by apply wf_bounds..|].
    destruct (operator_eq_spec a' b') as (e' & -> & He');
      [by apply wf_bounds..|].
    rewrite <- Hela, <- Helb, <- Hsa, <- Hsb in He'. f_equal.
    destruct e, e'; try done; [symmetry|]; tauto. }
  assert (operator_lt a b = operator_lt a' b') as Hlt.
  { rewrite !operator_lt_spec by by apply wf_bounds. by rewrite Hela, Helb. }
  assert (operator_lt b a = operator_lt b' a') as Hgt.
  { rewrite !operator_lt_spec by by apply wf_bounds. by rewrite Hela, Helb. }
  unfold operator_ne, operator_le, operator_gt, operator_ge.
  by rewrite Heq, Hlt, Hgt.
Qed.

(** X18: when [operator==] of the elements holds exactly between
    elements that [operator<] does not order, and [operator<] of the
    elements is asymmetric, two well-formed vectors are in exactly one
    of the relations [<], [==], [>], and [!=], [<=], [>=] are the
    corresponding unions. *)
Theorem comparisons_trichotomy a b :
  (∀ x y, elem_eq x y = negb (elem_lt x y) && negb (elem_lt y x)) →
  (∀ x y, elem_lt x y = true → elem_lt y x = false) →
  wf a → wf b →
  ∃ e l g,
    operator_eq a b = Some e ∧ operator_lt a b = Some l ∧
    operator_gt a b = Some g ∧
    (e = true ∧ l = false ∧ g = false ∨
     e = false ∧ l = true ∧ g = false ∨
     e = false ∧ l = false ∧ g = true) ∧
    operator_ne a b = Some (l || g) ∧
    operator_le a b = Some (l || e) ∧
    operator_ge a b = Some (g || e).
Proof.
  intros Hcompat Hasym Ha Hb.
  pose proof (length_elements a Ha) as Hla.
  pose proof (length_elements b Hb) as Hlb.
  destruct (operator_eq_spec a b) as (e & Heq & He); [by apply wf_bounds..|].
  unfold operator_ne, operator_le, operator_gt, operator_ge.
  rewrite Heq, !operator_lt_spec by by apply wf_bounds.
  assert (e = true ↔
          lexicographic_lt (elements a) (elements b) = false ∧
          lexicographic_lt (elements b) (elements a) = false) as He'.
  { rewrite He, <- Forall2_elem_eq_lexicographic by done. split.
    - by intros [_ ?].
    - intros HF. split; [|done]. apply Forall2_length in HF. lia. }
  pose proof (lexicographic_lt_asym (elements a) Hasym (elements b)) as Hlg.
  revert He' Hlg.
  generalize (lexicographic_lt (elements a) (elements b))
             (lexicographic_lt (elements b) (elements a)).
  intros l g He' Hlg. exists e, l, g.
  assert (e = negb l && negb g) as ->.
  { destruct e, l, g; simpl; intuition congruence. }
  destruct l, g; simpl in *;
    [by specialize (Hlg eq_refl)|..];
    (split_and!; [done..| |done|done|done]);
    first [by left|by right; left|by right; right].
Qed.

(** X19: when [operator<] of the elements is a strict weak ordering
    (asymmetric, and an element below another is below any third one or
    has that one below the other), [operator<] of well-formed vectors
    is a strict order: no vector is less than itself, two vectors are
    never less than each other, and less-than is transitive. *)
Theorem operator_lt_strict a b c :
  (∀ x y, elem_lt x y = true → elem_lt y x = false) →
  (∀ x y z, elem_lt x y = true → elem_lt x z = true ∨ elem_lt z y = true) →
  wf a → wf b → wf c →
  operator_lt a a = Some false ∧
  (operator_lt a b = Some true → operator_lt b a = Some false) ∧
  (operator_lt a b = Some true → operator_lt b c = Some true →
   operator_lt a c = Some true).
Proof.
  intros Hasym Hneg Ha Hb Hc.
  rewrite !operator_lt_spec by by apply wf_bounds. split_and!.
  - f_equal. destruct (lexicographic_lt (elements a) (elements a)) eqn:Haa;
      [|done].
    by rewrite (lexicographic_lt_asym _ Hasym _ Haa) in Haa.
  - intros [= Hab]. f_equal. by apply lexicographic_lt_asym.
  - intros [= Hab] [= Hbc]. f_equal.
    by apply (lexicographic_lt_trans _ Hasym Hneg (elements b)).
Qed.

(** X20: when every element equals itself, a copy-constructed vector
    compares equal to its original, in both directions. *)
Theorem copy_equals_original v :
  (∀ x, elem_eq x x = true) → wf v →
  ∃ c, SimpleVector_copy v = Some c ∧
    operator_eq c v = Some true ∧ operator_eq v c = Some true ∧
    operator_ne c v = Some false.
Proof.
  intros Hrefl Hwf.
  destruct (SimpleVector_copy_spec v Hwf)
    as (c & Hc & Hwfc & Hsize & _ & Hel).
  unfold GetSize in Hsize. exists c. split; [done|].
  assert (∀ a b, wf a → wf b → size_ a = size_ b →
            elements a = elements b → operator_eq a b = Some true) as Heq.
  { intros a b Ha Hb Hs Helab.
    destruct (operator_eq_spec a b) as (e & -> & He); [by apply wf_bounds..|].
    f_equal. apply He. split; [done|]. rewrite Helab.
    apply Forall_Forall2_diag, Forall_forall. intros x _. apply Hrefl. }
  unfold operator_ne. rewrite !Heq by done. done.
Qed.
End comparisons.

(** ** The further properties on [int] elements and a 16-bit [size_t] *)

Section further_examples.
#[local] Existing Instances size_t_16 int_element.
Open Scope Z_scope.

Ltac size_t_bound :=
  first [apply Nat.leb_le; reflexivity | apply Nat.ltb_lt; reflexivity].
Ltac solve_wf :=
  unfold wf; split; [reflexivity|split; [simpl; lia|size_t_bound]].

Lemma int_lt_asym (x y : Z) : elem_lt x y = true → elem_lt y x = false.
Proof. simpl. intros ?%Z.ltb_lt. apply Z.ltb_ge. lia. Qed.

Lemma int_lt_neg_trans (x y z : Z) :
  elem_lt x y = true → elem_lt x z = true ∨ elem_lt z y = true.
Proof.
  simpl. intros ?%Z.ltb_lt. destruct (Z.ltb_spec x z); [by left|right].
  apply Z.ltb_lt. lia.
Qed.

Lemma int_eq_compat (x y : Z) :
  elem_eq x y = negb (elem_lt x y) && negb (elem_lt y x).
Proof.
  simpl. destruct (Z.eqb_spec x y), (Z.ltb_spec x y), (Z.ltb_spec y x);
    simpl; done || lia.
Qed.

Lemma int_eq_refl (x : Z) : elem_eq x x = true.
Proof. simpl. apply Z.eqb_refl. Qed.

Lemma sized_constructors_witness :
  (∃ v, SimpleVector_sized 3 = Some v ∧ wf v ∧ items_ v = [0; 0; 0]) ∧
  (∃ v, SimpleVector_fill 3 7 = Some v ∧ wf v ∧ items_ v = [7; 7; 7]).
Proof.
  destruct (sized_constructors 3 7) as [Hsized Hfill].
  { size_t_bound. }
  assert (∃ v, SimpleVector_sized 3 = Some v) as [v Hv]
    by (eexists; vm_compute; reflexivity).
  assert (∃ v, SimpleVector_fill 3 7 = Some v) as [w Hw]
    by (eexists; vm_compute; reflexivity).
  destruct (Hsized v Hv) as (? & _ & _ & ?).
  destruct (Hfill w Hw) as (? & _ & _ & ?).
  split; [exists v|exists w]; (split; [assumption|split; assumption]).
Defined.

Lemma init_constructor_witness :
  ∃ v, SimpleVector_init [1; 2; 3] = Some v ∧
    GetCapacity v = 3%nat ∧ elements v = [1; 2; 3].
Proof.
  destruct (init_constructor [1; 2; 3]) as (v & Hv & _ & _ & Hc & _ & Hel).
  { size_t_bound. }
  exists v. split_and!; [exact Hv|exact Hc|exact Hel].
Defined.

Lemma copy_constructor_witness :
  ∃ v, SimpleVector_copy sample = Some v ∧
    GetCapacity v = 8%nat ∧ elements v = [1; 2; 3; 4; 5].
Proof.
  destruct (copy_constructor sample wf_sample)
    as (v & Hv & _ & _ & Hc & _ & Hel).
  exists v. split_and!; [exact Hv|exact Hc|exact Hel].
Defined.

Lemma modifiers_keep_invariant_witness :
  (∃ v', Resize sample 9 = Some v' ∧ wf v') ∧
  (∃ v', Reserve sample 9 = Some v' ∧ wf v') ∧
  (∃ v', PushBack sample (element 0) = Some v' ∧ wf v') ∧
  (∃ v' a, PushBack_move sample (element 0) = Some (v', a) ∧ wf v') ∧
  (∃ p v', Insert sample 2 (element 0) = Some (p, v') ∧ wf v') ∧
  (∃ p v' a, Insert_move sample 2 (element 0) = Some (p, v', a) ∧ wf v') ∧
  (∃ p v', Erase sample 2 = Some (p, v') ∧ wf v') ∧
  wf (PopBack sample) ∧ wf (Clear sample).
Proof.
  destruct (modifiers_keep_invariant sample 9 2 (element 0) wf_sample)
    as (H1 & H2 & H3 & H4 & H5 & H6 & H7 & [H8 _] & [H9 _]).
  assert (9 ≤ SIZE_MAX)%nat as Hn by size_t_bound.
  assert (size_ sample < SIZE_MAX)%nat as Hs by size_t_bound.
  assert (∃ v', Resize sample 9 = Some v') as [v1 E1]
    by (eexists; vm_compute; reflexivity).
  assert (∃ v', Reserve sample 9 = Some v') as [v2 E2]
    by (eexists; vm_compute; reflexivity).
  assert (∃ v', PushBack sample (element 0) = Some v') as [v3 E3]
    by (eexists; vm_compute; reflexivity).
  assert (∃ v' a, PushBack_move sample (element 0) = Some (v', a))
    as (v4 & a4 & E4) by (eexists; eexists; vm_compute; reflexivity).
  assert (∃ p v', Insert sample 2 (element 0) = Some (p, v'))
    as (p5 & v5 & E5) by (eexists; eexists; vm_compute; reflexivity).
  assert (∃ p v' a, Insert_move sample 2 (element 0) = Some (p, v', a))
    as (p6 & v6 & a6 & E6)
    by (eexists; eexists; eexists; vm_compute; reflexivity).
  assert (∃ p v', Erase sample 2 = Some (p, v'))
    as (p7 & v7 & E7) by (eexists; eexists; vm_compute; reflexivity).
  destruct (H1 Hn v1 E1) as [W1 _]. destruct (H2 Hn v2 E2) as [W2 _].
  destruct (H3 Hs v3 E3) as [W3 _]. destruct (H4 Hs v4 a4 E4) as [W4 _].
  destruct (H5 Hs p5 v5 E5) as [W5 _]. destruct (H6 Hs p6 v6 a6 E6) as [W6 _].
  destruct (H7 p7 v7 E7) as [W7 _].
  refine (conj _ (conj _ (conj _ (conj _ (conj _ (conj _ (conj _
            (conj H8 H9)))))))).
  - exists v1. split; assumption.
  - exists v2. split; assumption.
  - exists v3. split; assumption.
  - exists v4, a4. split; assumption.
  - exists p5, v5. split; assumption.
  - exists p6, v6, a6. split; assumption.
  - exists p7, v7. split; assumption.
Defined.

Lemma PushBack_within_capacity_witness :
  ∃ tr w, push_trace sample [6; 7; 8] = Some tr ∧
    last tr = Some w ∧ GetCapacity w = 8%nat ∧
    elements w = [1; 2; 3; 4; 5; 6; 7; 8].
Proof.
  destruct (PushBack_within_capacity sample [6; 7; 8] wf_sample)
    as (tr & w & Htr & Hall & Hlast & _ & Hel); [simpl; lia|].
  exists tr, w. split_and!; [exact Htr|exact Hlast| |exact Hel].
  apply Hall. destruct tr as [|u tr]; [discriminate Hlast|].
  apply list_elem_of_lookup. exists (length tr).
  rewrite <- Hlast. rewrite last_lookup. reflexivity.
Defined.

Lemma reserved_then_PushBack_witness :
  ∃ tr w, push_trace (SimpleVector_reserved (Reserve_proxy 4)) [1; 2; 3]
          = Some tr ∧
    last tr = Some w ∧ elements w = [1; 2; 3].
Proof.
  destruct (reserved_then_PushBack 4 [1; 2; 3])
    as (_ & _ & tr & w & Htr & _ & Hlast & Hel).
  { size_t_bound. }
  { simpl. lia. }
  exists tr, w. split_and!; [exact Htr|exact Hlast|exact Hel].
Defined.

Lemma Clear_then_Resize_witness :
  ∃ v', Resize (Clear sample) 3 = Some v' ∧
    GetCapacity v' = 8%nat ∧ elements v' = [0; 0; 0].
Proof.
  destruct (Clear_then_Resize sample 3 wf_sample)
    as (_ & _ & _ & v' & Hv' & Hc & Hel); [simpl; lia|].
  exists v'. split_and!; [exact Hv'|exact Hc|exact Hel].
Defined.

Lemma Resize_shrink_then_grow_witness :
  ∃ v1 v2, Resize sample 2 = Some v1 ∧ Resize v1 5 = Some v2 ∧
    elements v2 = [1; 2; 0; 0; 0].
Proof.
  destruct (Resize_shrink_then_grow sample 2 5 wf_sample)
    as (v1 & v2 & H1 & H2 & _ & Hel); [simpl; lia|lia|size_t_bound|].
  exists v1, v2. split_and!; [exact H1|exact H2|exact Hel].
Defined.

Lemma Insert_effect_witness :
  ∃ v1, Insert sample 2 (external 42) = Some (2%nat, v1) ∧
    elements v1 = [1; 2; 42; 3; 4; 5] ∧ read v1 2 = Some 42.
Proof.
  destruct (Insert_effect sample 2 42 wf_sample)
    as (v1 & v2 & H1 & _ & Hel & _ & _ & Hread & _);
    [simpl; lia|size_t_bound|].
  exists v1. split_and!; [exact H1|exact Hel|exact Hread].
Defined.

Lemma Insert_own_element_witness :
  ∃ v1, Insert sample 0 (element 2) = Some (0%nat, v1) ∧
    elements v1 = [2; 1; 2; 3; 4; 5].
Proof.
  destruct (Insert_own_element sample 0 2 wf_sample)
    as (v1 & y & H1 & Hel & _ & Hy); [simpl; lia..|].
  specialize (Hy ltac:(lia)). injection Hy as <-.
  exists v1. split; [exact H1|exact Hel].
Defined.

Lemma self_reference_undefined_witness :
  PushBack full3 (element 0) = None ∧
  PushBack_move full3 (element 0) = None ∧
  Insert full3 0 (element 0) = None ∧
  Insert_move full3 0 (element 0) = None.
Proof.
  apply (self_reference_undefined full3 0 0).
  - solve_wf.
  - reflexivity.
  - size_t_bound.
  - simpl. lia.
Defined.

Lemma Erase_effect_witness :
  ∃ v', Erase sample 1 = Some (1%nat, v') ∧
    elements v' = [1; 3; 4; 5] ∧ elements v' !! 1%nat = Some 3.
Proof.
  destruct (Erase_effect sample 1 wf_sample)
    as (v' & Hv' & _ & Hel & Hnext & _); [simpl; lia|].
  exists v'. split_and!; [exact Hv'|exact Hel|exact Hnext].
Defined.

Lemma PushBack_then_PopBack_witness :
  (∃ v', PushBack sample (external 6) = Some v' ∧
     read v' 5 = Some 6 ∧ elements (PopBack v') = [1; 2; 3; 4; 5]) ∧
  (∃ v', PushBack sample (element 0) = Some v' ∧
     read v' 5 = Some 1 ∧ elements (PopBack v') = [1; 2; 3; 4; 5]).
Proof.
  split.
  - destruct (PushBack_then_PopBack sample (external 6) 6 wf_sample)
      as (v' & Hv' & Hread & _ & Hel); [size_t_bound|reflexivity|].
    exists v'. split_and!; [exact Hv'|exact Hread|exact Hel].
  - destruct (PushBack_then_PopBack sample (element 0) 1 wf_sample)
      as (v' & Hv' & Hread & _ & Hel);
      [size_t_bound|split; [simpl; lia|reflexivity]|].
    exists v'. split_and!; [exact Hv'|exact Hread|exact Hel].
Defined.

Lemma Insert_at_end_witness :
  Insert sample 5 (external 6)
  = (λ v', (5%nat, v')) <$> PushBack sample (external 6) ∧
  Insert_move full3 3 (element 0)
  = (λ r, (3%nat, r.1, r.2)) <$> PushBack_move full3 (element 0).
Proof.
  split.
  - apply (Insert_at_end sample (external 6) wf_sample). size_t_bound.
  - apply (Insert_at_end full3 (element 0)); [solve_wf|size_t_bound].
Defined.

Lemma Erase_last_witness :
  Erase sample 4 = Some (4%nat, PopBack sample) ∧
  items_ (PopBack sample) = items_ sample ∧
  GetSize (PopBack sample) = 4%nat.
Proof. apply (Erase_last sample wf_sample). simpl. lia. Defined.

Lemma copy_assign_copies_witness :
  ∃ h' t', copy_assign Some 0 1 sample_heap = Done () h' ∧
    h' !! 0%nat = Some t' ∧ elements t' = [7; 8; 9] ∧
    h' !! 1%nat = sample_heap !! 1%nat.
Proof.
  destruct (copy_assign_copies Some sample_heap 0 1
              {| items_ := [1; 2; 3]; size_ := 3; capacity_ := 3 |}
              {| items_ := [7; 8; 9]; size_ := 3; capacity_ := 3 |})
    as (h' & t' & Hh' & Ht' & _ & _ & _ & Hel & Hframe);
    [reflexivity|reflexivity|lia|solve_wf|reflexivity|].
  exists h', t'. split_and!; [exact Hh'|exact Ht'|exact Hel|].
  apply Hframe. lia.
Defined.

Lemma copy_assign_throws_witness :
  ∃ h' t', copy_assign copy_unless_8 0 1 sample_heap
           = Raised element_exception h' ∧
    h' !! 0%nat = Some t' ∧ GetSize t' = 3%nat ∧
    items_ t' = [7; -2; -3] ∧
    h' !! 1%nat = sample_heap !! 1%nat.
Proof.
  destruct (copy_assign_throws copy_unless_8 sample_heap 0 1
              {| items_ := [1; 2; 3]; size_ := 3; capacity_ := 3 |}
              {| items_ := [7; 8; 9]; size_ := 3; capacity_ := 3 |} 1 8)
    as (h' & t' & Hh' & Ht' & Hs & _ & Hi & Hframe);
    [reflexivity|reflexivity|lia|solve_wf|simpl; lia| |reflexivity
    |reflexivity|].
  { intros [|i] y Hi Hy; [|lia]. injection Hy as <-. reflexivity. }
  exists h', t'. split_and!; [exact Hh'|exact Ht'|exact Hs|exact Hi|].
  apply Hframe. lia.
Defined.

Lemma move_assign_there_and_back_witness :
  ∃ h1 h2, move_assign 0 1 sample_heap = Some h1 ∧
    move_assign 1 0 h1 = Some h2 ∧
    (items_ <$> h2 !! 1%nat) = Some [7; 8; 9] ∧
    (items_ <$> h2 !! 0%nat) = Some [].
Proof.
  destruct (move_assign_there_and_back sample_heap 0 1
              {| items_ := [1; 2; 3]; size_ := 3; capacity_ := 3 |}
              {| items_ := [7; 8; 9]; size_ := 3; capacity_ := 3 |})
    as (h1 & h2 & r' & t' & H1 & H2 & Hr & Ht & _ & _ & Hir & _ & _ & Hit & _);
    [reflexivity|reflexivity|lia|].
  exists h1, h2. rewrite Hr, Ht. simpl. rewrite Hir, Hit.
  split_and!; [exact H1|exact H2|reflexivity|reflexivity].
Defined.

Lemma comparisons_depend_on_elements_witness :
  operator_eq sample sample
  = operator_eq {| items_ := [1; 2; 3; 4; 5]; size_ := 5; capacity_ := 5 |}
                sample ∧
  operator_lt sample sample
  = operator_lt {| items_ := [1; 2; 3; 4; 5]; size_ := 5; capacity_ := 5 |}
                sample.
Proof.
  destruct (comparisons_depend_on_elements sample
              {| items_ := [1; 2; 3; 4; 5]; size_ := 5; capacity_ := 5 |}
              sample sample)
    as (Heq & _ & Hlt & _);
    [exact wf_sample|solve_wf|exact wf_sample|exact wf_sample
    |reflexivity|reflexivity|].
  split; [exact Heq|exact Hlt].
Defined.

Lemma comparisons_trichotomy_witness :
  ∃ e l g, operator_eq sample (Clear sample) = Some e ∧
    operator_lt sample (Clear sample) = Some l ∧
    operator_gt sample (Clear sample) = Some g ∧
    operator_le sample (Clear sample) = Some (l || e).
Proof.
  destruct (comparisons_trichotomy sample (Clear sample)
              int_eq_compat int_lt_asym wf_sample)
    as (e & l & g & He & Hl & Hg & _ & _ & Hle & _); [solve_wf|].
  exists e, l, g. split_and!; [exact He|exact Hl|exact Hg|exact Hle].
Defined.

Lemma operator_lt_strict_witness :
  operator_lt sample sample = Some false ∧
  (operator_lt (Clear sample) sample = Some true →
   operator_lt sample (Clear sample) = Some false).
Proof.
  destruct (operator_lt_strict (Clear sample) sample sample
              int_lt_asym int_lt_neg_trans)
    as (_ & Hasym & _); [solve_wf|exact wf_sample|exact wf_sample|].
  destruct (operator_lt_strict sample sample sample
              int_lt_asym int_lt_neg_trans wf_sample wf_sample wf_sample)
    as (Hirr & _ & _).
  split; [exact Hirr|exact Hasym].
Defined.

Lemma copy_equals_original_witness :
  ∃ c, SimpleVector_copy sample = Some c ∧ operator_eq c sample = Some true.
Proof.
  destruct (copy_equals_original sample int_eq_refl wf_sample)
    as (c & Hc & Heq & _).
  exists c. split; [exact Hc|exact Heq].
Defined.
End further_examples.
